(** * Quirk arithmetic gates and the boolean shader coder

    A shallow embedding of [src/gates/ArithmeticGates.js] and of the boolean
    parts of the shader coder that follows it in the sources.

    Two languages meet in that file.  The host side is JavaScript: bit
    operations there work on 32-bit integers and are modelled on [Z] with
    the wrap-around written out (module [JS]).  The device side is GLSL:
    every value is a [float]; it is modelled by an exact rational (module
    [GLSL]), which is what the shader computes as long as the integers
    involved stay exactly representable (the circuits have at most 16
    qubits). *)

From Stdlib Require Import ZArith QArith Qround Lia Bool.
From stdpp Require Import base gmap strings.

Local Open Scope Z_scope.

(** ** JavaScript integers *)

Module JS.

(** [ToInt32] of the language standard: reduce modulo [2^32] into the signed
    range. *)
Definition ToInt32 (z : Z) : Z := (z + 2 ^ 31) mod 2 ^ 32 - 2 ^ 31.

(** [a << n] *)
Definition shl (a n : Z) : Z := ToInt32 (Z.shiftl (ToInt32 a) (n mod 32)).

(** [a >> n] *)
Definition sar (a n : Z) : Z := Z.shiftr (ToInt32 a) (n mod 32).

(** [a & b] *)
Definition band (a b : Z) : Z := Z.land (ToInt32 a) (ToInt32 b).

(** [Math.floor] and [Math.ceil], on the exact quotient. *)
Definition Math_floor (x : Q) : Z := Qfloor x.
Definition Math_ceil (x : Q) : Z := Qceiling x.

End JS.

(** ** GLSL floats *)

Module GLSL.

Definition floor (x : Q) : Q := inject_Z (Qfloor x).

(** [mod(x, y)] is [x - y * floor(x / y)] in the GLSL specification. *)
Definition mod_ (x y : Q) : Q := (x - y * floor (x / y))%Q.

(** [float(b)] for a [bool] *)
Definition float (b : bool) : Q := if b then 1%Q else 0%Q.

(** the comparison operators *)
Definition lt (x y : Q) : bool := negb (Qle_bool y x).
Definition gt (x y : Q) : bool := negb (Qle_bool x y).
Definition le (x y : Q) : bool := Qle_bool x y.
Definition ge (x y : Q) : bool := Qle_bool y x.
Definition eq (x y : Q) : bool := Qeq_bool x y.
Definition ne (x y : Q) : bool := negb (Qeq_bool x y).

End GLSL.

Record vec2 := Vec2 { v2x : Q; v2y : Q }.
Record vec4 := Vec4 { v4x : Q; v4y : Q; v4z : Q; v4w : Q }.

(** ** Textures and shader arguments *)

(** A texture is a [width] by [height] grid of four-component pixels;
    [texel c r] is the pixel in column [c] of row [r]. *)
Record WglTexture := {
  width : Z;
  height : Z;
  texel : Z -> Z -> vec4
}.

(** Modelled from the spec: [WglTexture.sizePower] (src/webgl/WglTexture.js is
    not among the sources), the base-2 logarithm of the pixel count. *)
Definition sizePower (tex : WglTexture) : Z := Z.log2 (width tex * height tex).

(** Modelled from the spec: [texture2D] of the device, sampling the pixel
    whose cell contains the normalized coordinate [uv]. *)
Definition texture2D (tex : WglTexture) (uv : vec2) : vec4 :=
  texel tex (Qfloor (v2x uv * inject_Z (width tex)))
            (Qfloor (v2y uv * inject_Z (height tex))).

(** Modelled from the spec: the arguments of [WglArg] (src/webgl/WglArg.js
    is not among the sources), a name with a typed value. *)
Inductive WglArg :=
| WglArg_float (name : string) (value : Q)
| WglArg_vec2 (name : string) (vx vy : Q)
| WglArg_texture (name : string) (tex : WglTexture).

(** The uniforms a program sees are looked up by name in its argument list;
    the first binding of a name wins and an unbound uniform reads as zero. *)
Fixpoint uniform_float (args : list WglArg) (n : string) : Q :=
  match args with
  | [] => 0%Q
  | WglArg_float m v :: rest => if String.eqb m n then v else uniform_float rest n
  | _ :: rest => uniform_float rest n
  end.

Fixpoint uniform_vec2 (args : list WglArg) (n : string) : vec2 :=
  match args with
  | [] => Vec2 0 0
  | WglArg_vec2 m vx vy :: rest =>
      if String.eqb m n then Vec2 vx vy else uniform_vec2 rest n
  | _ :: rest => uniform_vec2 rest n
  end.

Definition no_texture : WglTexture :=
  {| width := 0; height := 0; texel := fun _ _ => Vec4 0 0 0 0 |}.

Fixpoint uniform_sampler2D (args : list WglArg) (n : string) : WglTexture :=
  match args with
  | [] => no_texture
  | WglArg_texture m t :: rest =>
      if String.eqb m n then t else uniform_sampler2D rest n
  | _ :: rest => uniform_sampler2D rest n
  end.

(** ** Evaluation context and ket shaders *)

(** An auxiliary range as the context holds it under its name. *)
Record Range := { offset : Z; length : Z }.

(** Modelled from the spec: the two members of [CircuitEvalContext] that this
    file reads, the row of the gate and the ranges supplied by other gates. *)
Record CircuitEvalContext := {
  row : Z;
  customContextFromGates : gmap string Range
}.

Definition withRow (ctx : CircuitEvalContext) (r : Z) : CircuitEvalContext :=
  {| row := r; customContextFromGates := customContextFromGates ctx |}.

(** What a ket shader body sees besides its own uniforms. *)
Record Ket := { out_id : Q; full_out_id : Q; span : Q }.

Inductive KetShape := GeneralTransform | Permutation | Phase.

Record KetShader := {
  shape : KetShape;
  head : string;
  body : list WglArg -> Ket -> Q
}.

(** Modelled from the spec: [ketShaderPermute] of src/circuit/KetShaderUtil.js
    (only its test is among the sources).  The body returns, for each
    [out_id], the index whose amplitude is read into that position. *)
Definition ketShaderPermute (head : string) (body : list WglArg -> Ket -> Q)
  : KetShader :=
  {| shape := Permutation; head := head; body := body |}.

Record KetArgs := { ket_row : Z; ket_span : Z }.

(** Modelled from the spec: [ketArgs] of src/circuit/KetShaderUtil.js, which
    binds the target row and the qubit span of the call. *)
Definition ketArgs (ctx : CircuitEvalContext) (qubitSpan : Z) : KetArgs :=
  {| ket_row := row ctx; ket_span := qubitSpan |}.

(** Modelled from the spec: a shader together with the arguments it was
    given by [withArgs] (src/webgl/WglConfiguredShader.js is not among the
    sources); the arguments of [ketArgs] are kept apart from the custom
    ones. *)
Record WglConfiguredShader := {
  shader : KetShader;
  ket : KetArgs;
  args : list WglArg
}.

Definition withArgs (s : KetShader) (k : KetArgs) (custom : list WglArg)
  : WglConfiguredShader :=
  {| shader := s; ket := k; args := custom |}.

(** Modelled from the spec: the index decomposition of a ket shader.  The
    [span] uniform is the qubit span as a power of two and [out_id] is the
    [span]-wide slice of [full_out_id] that starts at the row. *)
Definition ket_at (k : KetArgs) (full : Q) : Ket :=
  {| out_id := GLSL.mod_ (GLSL.floor (full / inject_Z (2 ^ ket_row k)))
                         (inject_Z (2 ^ ket_span k));
     full_out_id := full;
     span := inject_Z (2 ^ ket_span k) |}.

(** The value the body returns at the output position [full]. *)
Definition run (cs : WglConfiguredShader) (full : Q) : Q :=
  body (shader cs) (args cs) (ket_at (ket cs) full).

(** Modelled from the spec: the position a permutation shader reads for the
    output position [full]; only the slice at the row varies. *)
Definition source_index (cs : WglConfiguredShader) (full : Q) : Q :=
  (full + (run cs full - out_id (ket_at (ket cs) full))
          * inject_Z (2 ^ ket_row (ket cs)))%Q.

(** ** Completions of host calls *)

Inductive JSError := TypeError.

Inductive Completion (A : Type) :=
| Normal (a : A)
| Throw (e : JSError).
Arguments Normal {A} a.
Arguments Throw {A} e.

Definition bind {A B} (c : Completion A) (f : A -> Completion B) : Completion B :=
  match c with
  | Normal a => f a
  | Throw e => Throw e
  end.

Notation "'let*' x ':=' c 'in' f" := (bind c (fun x => f))
  (at level 10, x name, c at level 100, f at level 200).

(** [let {offset, length} = map.get(key)]: [Map.prototype.get] answers
    [undefined] for an absent key and destructuring [undefined] throws. *)
Definition get_range (m : gmap string Range) (key : string) : Completion Range :=
  match m !! key with
  | Some r => Normal r
  | None => Throw TypeError
  end.


(** ** Matrices *)

(** Modelled from the spec: [Matrix.generateTransition] (src/math/Matrix.js is
    not among the sources; the test of the sources pins its orientation).
    Column [c] of the matrix holds its single one in row [func c]. *)
Record Matrix := { mat_size : Z; cell : Z -> Z -> Z }.

Definition generateTransition (size : Z) (func : Z -> Z) : Matrix :=
  {| mat_size := size;
     cell := fun r c => if func c =? r then 1 else 0 |}.

Definition makeOffsetMatrix (offset qubitSpan : Z) : Matrix :=
  generateTransition (JS.shl 1 qubitSpan)
    (fun e => JS.band (e + offset) (JS.shl 1 qubitSpan - 1)).

Definition INCREMENT_MATRIX_MAKER (span : Z) : Matrix := makeOffsetMatrix 1 span.
Definition DECREMENT_MATRIX_MAKER (span : Z) : Matrix := makeOffsetMatrix (-1) span.

Definition addition_transition (span e : Z) : Z :=
  let sa := JS.Math_floor (inject_Z span / 2) in
  let sb := JS.Math_ceil (inject_Z span / 2) in
  let a := JS.band e (JS.shl 1 sa - 1) in
  let b := JS.sar e sa in
  let b := b + a in
  let b := JS.band b (JS.shl 1 sb - 1) in
  a + JS.shl b sa.

Definition subtraction_transition (span e : Z) : Z :=
  let sa := JS.Math_floor (inject_Z span / 2) in
  let sb := JS.Math_ceil (inject_Z span / 2) in
  let a := JS.band e (JS.shl 1 sa - 1) in
  let b := JS.sar e sa in
  let b := b - a in
  let b := JS.band b (JS.shl 1 sb - 1) in
  a + JS.shl b sa.

Definition ADDITION_MATRIX_MAKER (span : Z) : Matrix :=
  generateTransition (JS.shl 1 span) (addition_transition span).

Definition SUBTRACTION_MATRIX_MAKER (span : Z) : Matrix :=
  generateTransition (JS.shl 1 span) (subtraction_transition span).

(** ** The shaders *)

(** Every body that reads an auxiliary range starts with the same expression,
    [mod(floor(full_out_id / offset), span)], on the two uniforms of that
    range. *)
Definition aux_range (full_out_id srcOffset srcSpan : Q) : Q :=
  GLSL.mod_ (GLSL.floor (full_out_id / srcOffset)) srcSpan.

Definition incrementShader : KetShader :=
  ketShaderPermute "uniform float amount;" (fun u k =>
    let amount := uniform_float u "amount" in
    GLSL.mod_ (out_id k - amount + span k) (span k))%Q.

Definition incrementShaderFunc (ctx : CircuitEvalContext)
    (qubitSpan incrementAmount : Z) : WglConfiguredShader :=
  withArgs incrementShader (ketArgs ctx qubitSpan)
    [WglArg_float "amount" (inject_Z incrementAmount)].

Definition FLIP_SHADER : KetShader :=
  ketShaderPermute "uniform float srcOffset, srcSpan;" (fun u k =>
    let srcOffset := uniform_float u "srcOffset" in
    let srcSpan := uniform_float u "srcSpan" in
    let d := aux_range (full_out_id k) srcOffset srcSpan in
    if GLSL.ge (out_id k) d then out_id k
    else GLSL.mod_ (d - 1 - out_id k) (span k))%Q.

Definition flipShaderFunc (ctx : CircuitEvalContext) (span srcOffset srcSpan : Z)
  : WglConfiguredShader :=
  withArgs FLIP_SHADER (ketArgs ctx span)
    [WglArg_float "srcOffset" (inject_Z (JS.shl 1 srcOffset));
     WglArg_float "srcSpan" (inject_Z (JS.shl 1 srcSpan))].

Definition FLIP_SHADER_2 : KetShader :=
  ketShaderPermute "uniform float srcOffset, srcSpan;" (fun u k =>
    let srcOffset := uniform_float u "srcOffset" in
    let srcSpan := uniform_float u "srcSpan" in
    let d := aux_range (full_out_id k) srcOffset srcSpan in
    if GLSL.gt (out_id k) d then out_id k
    else GLSL.mod_ (d - out_id k) (span k))%Q.

Definition flipShaderFunc2 (ctx : CircuitEvalContext) (span srcOffset srcSpan : Z)
  : WglConfiguredShader :=
  withArgs FLIP_SHADER_2 (ketArgs ctx span)
    [WglArg_float "srcOffset" (inject_Z (JS.shl 1 srcOffset));
     WglArg_float "srcSpan" (inject_Z (JS.shl 1 srcSpan))].

Definition ADDITION_SHADER : KetShader :=
  ketShaderPermute "uniform float srcOffset, srcSpan, factor;" (fun u k =>
    let srcOffset := uniform_float u "srcOffset" in
    let srcSpan := uniform_float u "srcSpan" in
    let factor := uniform_float u "factor" in
    let d := aux_range (full_out_id k) srcOffset srcSpan in
    let d := d * factor in
    let d := GLSL.mod_ d (span k) in
    GLSL.mod_ (out_id k + span k - d) (span k))%Q.

Definition additionShaderFunc (ctx : CircuitEvalContext)
    (span srcOffset srcSpan scaleFactor : Z) : WglConfiguredShader :=
  withArgs ADDITION_SHADER (ketArgs ctx span)
    [WglArg_float "srcOffset" (inject_Z (JS.shl 1 srcOffset));
     WglArg_float "srcSpan" (inject_Z (JS.shl 1 srcSpan));
     WglArg_float "factor" (inject_Z scaleFactor)].

(** The comparison spliced into the program text is the parameter
    [compareCode]; the six gates below pass the six GLSL operators. *)
Definition comparison_shader (compareCode : Q -> Q -> bool) : KetShader :=
  ketShaderPermute "uniform float lhsOffset, lhsSpan, rhsOffset, rhsSpan;" (fun u k =>
    let lhsOffset := uniform_float u "lhsOffset" in
    let lhsSpan := uniform_float u "lhsSpan" in
    let rhsOffset := uniform_float u "rhsOffset" in
    let rhsSpan := uniform_float u "rhsSpan" in
    let lhs := aux_range (full_out_id k) lhsOffset lhsSpan in
    let rhs := aux_range (full_out_id k) rhsOffset rhsSpan in
    GLSL.mod_ (out_id k + (if compareCode lhs rhs then 1 else 0)) 2)%Q.

Definition customComparisonShader (compareCode : Q -> Q -> bool)
  : CircuitEvalContext -> Completion WglConfiguredShader :=
  let shader := comparison_shader compareCode in
  fun ctx =>
    let* A := get_range (customContextFromGates ctx) "Input Range A" in
    let* B := get_range (customContextFromGates ctx) "Input Range B" in
    Normal (withArgs shader (ketArgs ctx 1)
      [WglArg_float "lhsOffset" (inject_Z (JS.shl 1 (offset A)));
       WglArg_float "rhsOffset" (inject_Z (JS.shl 1 (offset B)));
       WglArg_float "lhsSpan" (inject_Z (JS.shl 1 (length A)));
       WglArg_float "rhsSpan" (inject_Z (JS.shl 1 (length B)))]).

(** ** The gates *)

(** Modelled from the spec: the part of [Gate] (src/circuit/Gate.js is not
    among the sources) that the builder calls of this file set.  The
    markers, the serialized identifier and the drawer of a gate play no part
    in what follows and are left out. *)
Record Gate := {
  name : string;
  blurb : string;
  gate_height : Z;
  knownMatrix : option Matrix;
  requiredContextKeys : list string;
  customShader : option (CircuitEvalContext -> Completion WglConfiguredShader)
}.

Definition withoutKnownMatrix (name blurb : string) : Gate :=
  {| name := name; blurb := blurb; gate_height := 1; knownMatrix := None;
     requiredContextKeys := []; customShader := None |}.

Definition withKnownMatrix (m : option Matrix) (g : Gate) : Gate :=
  {| name := name g; blurb := blurb g; gate_height := gate_height g;
     knownMatrix := m;
     requiredContextKeys := requiredContextKeys g;
     customShader := customShader g |}.

Definition withHeight (h : Z) (g : Gate) : Gate :=
  {| name := name g; blurb := blurb g; gate_height := h;
     knownMatrix := knownMatrix g;
     requiredContextKeys := requiredContextKeys g;
     customShader := customShader g |}.

Definition withRequiredContextKeys (keys : list string) (g : Gate) : Gate :=
  {| name := name g; blurb := blurb g; gate_height := gate_height g;
     knownMatrix := knownMatrix g;
     requiredContextKeys := keys;
     customShader := customShader g |}.

Definition withCustomShader
    (f : CircuitEvalContext -> Completion WglConfiguredShader) (g : Gate) : Gate :=
  {| name := name g; blurb := blurb g; gate_height := gate_height g;
     knownMatrix := knownMatrix g;
     requiredContextKeys := requiredContextKeys g;
     customShader := Some f |}.

(** Modelled from the spec: [Gate.generateFamily], one gate per span between
    the two bounds. *)
Record GateFamily := { minSize : Z; maxSize : Z; ofSize : Z -> Gate }.

Definition generateFamily (minSize maxSize : Z) (gen : Z -> Gate) : GateFamily :=
  {| minSize := minSize; maxSize := maxSize; ofSize := gen |}.

Definition family_all (f : GateFamily) : list Gate :=
  ofSize f <$> seqZ (minSize f) (maxSize f - minSize f + 1).

(** The gate-evaluation call: the custom shader of the gate, when it has
    one, applied to the context. *)
Definition evaluate (g : Gate) (ctx : CircuitEvalContext)
  : option (Completion WglConfiguredShader) :=
  (fun f => f ctx) <$> customShader g.

Module ArithmeticGates.

Definition IncrementFamily : GateFamily := generateFamily 1 16 (fun span =>
  withCustomShader (fun ctx => Normal (incrementShaderFunc ctx span 1))
  (withHeight span
  (withKnownMatrix (if 4 <=? span then None else Some (INCREMENT_MATRIX_MAKER span))
  (withoutKnownMatrix "Increment Gate"
     "Adds 1 to the little-endian number represented by a block of qubits.")))).

Definition DecrementFamily : GateFamily := generateFamily 1 16 (fun span =>
  withCustomShader (fun ctx => Normal (incrementShaderFunc ctx span (-1)))
  (withHeight span
  (withKnownMatrix (if 4 <=? span then None else Some (DECREMENT_MATRIX_MAKER span))
  (withoutKnownMatrix "Decrement Gate"
     "Subtracts 1 from the little-endian number represented by a block of qubits.")))).

Definition AdditionFamily : GateFamily := generateFamily 2 16 (fun span =>
  withCustomShader (fun ctx => Normal (additionShaderFunc
      (withRow ctx (row ctx + JS.Math_floor (inject_Z span / 2)))
      (JS.Math_ceil (inject_Z span / 2))
      (row ctx)
      (JS.Math_floor (inject_Z span / 2))
      1))
  (withHeight span
  (withKnownMatrix (if 5 <=? span then None else Some (ADDITION_MATRIX_MAKER span))
  (withoutKnownMatrix "Addition Gate"
     "Adds a little-endian number into another.")))).

Definition SubtractionFamily : GateFamily := generateFamily 2 16 (fun span =>
  withCustomShader (fun ctx => Normal (additionShaderFunc
      (withRow ctx (row ctx + JS.Math_floor (inject_Z span / 2)))
      (JS.Math_ceil (inject_Z span / 2))
      (row ctx)
      (JS.Math_floor (inject_Z span / 2))
      (-1)))
  (withHeight span
  (withKnownMatrix (if 5 <=? span then None else Some (SUBTRACTION_MATRIX_MAKER span))
  (withoutKnownMatrix "Subtraction Gate"
     "Subtracts a little-endian number from another.")))).

Definition PlusAFamily : GateFamily := generateFamily 1 16 (fun span =>
  withCustomShader (fun ctx =>
      let* A := get_range (customContextFromGates ctx) "Input Range A" in
      Normal (additionShaderFunc ctx span (offset A) (length A) 1))
  (withRequiredContextKeys ["Input Range A"]
  (withHeight span
  (withoutKnownMatrix "Addition Gate [input A]"
     "Adds 'input A' into the qubits covered by this gate.")))).

Definition MinusAFamily : GateFamily := generateFamily 1 16 (fun span =>
  withCustomShader (fun ctx =>
      let* A := get_range (customContextFromGates ctx) "Input Range A" in
      Normal (additionShaderFunc ctx span (offset A) (length A) (-1)))
  (withRequiredContextKeys ["Input Range A"]
  (withHeight span
  (withoutKnownMatrix "Subtraction Gate [input A]"
     "Subtracts 'input A' out of the qubits covered by this gate.")))).

Definition FlipBelow : GateFamily := generateFamily 1 16 (fun span =>
  withCustomShader (fun ctx =>
      let* A := get_range (customContextFromGates ctx) "Input Range A" in
      Normal (flipShaderFunc ctx span (offset A) (length A)))
  (withRequiredContextKeys ["Input Range A"]
  (withHeight span
  (withoutKnownMatrix "Flip Gate [input A]" "?????")))).

Definition FlipBelow2 : GateFamily := generateFamily 1 16 (fun span =>
  withCustomShader (fun ctx =>
      let* A := get_range (customContextFromGates ctx) "Input Range A" in
      Normal (flipShaderFunc2 ctx span (offset A) (length A)))
  (withRequiredContextKeys ["Input Range A"]
  (withHeight span
  (withoutKnownMatrix "Flip Gate [input A]" "?????")))).

Definition comparison_gate (name blurb : string) (compareCode : Q -> Q -> bool)
  : Gate :=
  withCustomShader (customComparisonShader compareCode)
  (withRequiredContextKeys ["Input Range A"; "Input Range B"]
  (withoutKnownMatrix name blurb)).

Definition ALessThanB : Gate :=
  comparison_gate "Less-Than Gate [inputs A, B]"
    "Toggles the target if 'input A' is less than 'input B'." GLSL.lt.

Definition AGreaterThanB : Gate :=
  comparison_gate "Greater-Than Gate [inputs A, B]"
    "Toggles the target if 'input A' is greater than 'input B'." GLSL.gt.

Definition ALessThanOrEqualToB : Gate :=
  comparison_gate "At-Most Gate [inputs A, B]"
    "Toggles the target if 'input A' is less than 'input B'." GLSL.le.

Definition AGreaterThanOrEqualToB : Gate :=
  comparison_gate "At-Least Gate [inputs A, B]"
    "Toggles the target if 'input A' is greater than 'input B'." GLSL.ge.

Definition AEqualToB : Gate :=
  comparison_gate "Equality Gate [inputs A, B]"
    "Toggles the target if 'input A' is equal to 'input B'." GLSL.eq.

Definition ANotEqualToB : Gate :=
  comparison_gate "Inequality Gate [inputs A, B]"
    "Toggles the target if 'input A' is equal to 'input B'." GLSL.ne.

Definition all : list Gate :=
  family_all IncrementFamily ++
  family_all DecrementFamily ++
  family_all AdditionFamily ++
  family_all SubtractionFamily ++
  family_all PlusAFamily ++
  family_all MinusAFamily ++
  family_all FlipBelow ++
  family_all FlipBelow2 ++
  [ALessThanB; AGreaterThanB; AEqualToB; ANotEqualToB;
   ALessThanOrEqualToB; AGreaterThanOrEqualToB].

End ArithmeticGates.

(** ** The boolean shader coder *)

Record ShaderPart (Code : Type) := {
  code : Code;
  libs : list string;
  argsFor : WglTexture -> list WglArg
}.
Arguments code {Code} s.
Arguments libs {Code} s.
Arguments argsFor {Code} s.

(** The two functions an input part declares; each reads the uniforms the
    part was bound with. *)
Record InputCode := {
  read_ : list WglArg -> Q -> Q;
  len_ : list WglArg -> Q
}.

(** The functions an output part declares; [outputFor] is supplied by the
    program the part is linked into and [main] answers [gl_FragColor] for
    the fragment at [gl_FragCoord]. *)
Record OutputCode := {
  len_output : list WglArg -> Q;
  main : list WglArg -> (Q -> bool) -> vec2 -> vec4
}.

Definition boolInputPartGetter (name : string) : ShaderPart InputCode :=
  let pre := ("_gen_" ++ name)%string in
  {| code :=
       {| read_ := fun u k =>
            let tex := uniform_sampler2D u (pre ++ "_tex") in
            let size := uniform_vec2 u (pre ++ "_size") in
            let uv := Vec2 ((GLSL.mod_ k (v2x size) + (1 # 2)) / v2x size)
                           ((GLSL.floor (k / v2x size) + (1 # 2)) / v2y size) in
            GLSL.float (GLSL.eq (v4x (texture2D tex uv)) 1);
          len_ := fun u =>
            let size := uniform_vec2 u (pre ++ "_size") in
            v2x size * v2y size * 4 |}%Q;
     libs := [];
     argsFor := fun texture =>
       [WglArg_texture (pre ++ "_tex") texture;
        WglArg_vec2 (pre ++ "_size") (inject_Z (width texture))
                                     (inject_Z (height texture))] |}.

Definition BOOL_OUTPUT_PART : ShaderPart OutputCode :=
  {| code :=
       {| len_output := fun u =>
            let size := uniform_vec2 u "_gen_output_size" in
            v2x size * v2y size;
          main := fun u outputFor gl_FragCoord =>
            let size := uniform_vec2 u "_gen_output_size" in
            let half := uniform_float u "_gen_secret_half" in
            let xy := Vec2 (v2x gl_FragCoord - half) (v2y gl_FragCoord - half) in
            let k := v2y xy * v2x size + v2x xy in
            Vec4 (GLSL.float (outputFor k)) 0 0 0 |}%Q;
     libs := [];
     argsFor := fun texture =>
       [WglArg_vec2 "_gen_output_size" (inject_Z (width texture))
                                       (inject_Z (height texture));
        WglArg_float "_gen_secret_half" (1 # 2)] |}.

Record SingleTypeCoder (Data Pixels : Type) := {
  inputPartGetter : string -> ShaderPart InputCode;
  outputPart : ShaderPart OutputCode;
  powerSizeOverhead : Z;
  pixelType : Z;
  dataToPixels : Data -> Pixels;
  pixelsToData : Pixels -> Data;
  needRearrangingToBeInVec4Format : bool
}.
Arguments inputPartGetter {Data Pixels} s.
Arguments outputPart {Data Pixels} s.
Arguments powerSizeOverhead {Data Pixels} s.
Arguments pixelType {Data Pixels} s.
Arguments dataToPixels {Data Pixels} s.
Arguments pixelsToData {Data Pixels} s.
Arguments needRearrangingToBeInVec4Format {Data Pixels} s.

Definition arrayPowerSizeOfTexture {Data Pixels}
    (coder : SingleTypeCoder Data Pixels) (tex : WglTexture) : Z :=
  sizePower tex - powerSizeOverhead coder.

(** [WebGLRenderingContext.UNSIGNED_BYTE] *)
Definition UNSIGNED_BYTE : Z := 5121.

Definition BOOL_TYPE_CODER : SingleTypeCoder (list Z) (list Z) :=
  {| inputPartGetter := boolInputPartGetter;
     outputPart := BOOL_OUTPUT_PART;
     powerSizeOverhead := 0;
     pixelType := UNSIGNED_BYTE;
     dataToPixels := fun e => e;
     pixelsToData := fun e => e;
     needRearrangingToBeInVec4Format := false |}.

(** ** Integer views *)

(** A ket whose three values are integers. *)
Definition ketZ (o f s : Z) : Ket :=
  {| out_id := inject_Z o; full_out_id := inject_Z f; span := inject_Z s |}.

(** The [n]-bit slice of [x] at bit [r], and the index made of the slice [e]
    at bit [r] between the lower bits [lo] and the upper bits [hi]. *)
Definition slice (r n x : Z) : Z := (x / 2 ^ r) mod 2 ^ n.

Definition embed (r n lo e hi : Z) : Z := lo + e * 2 ^ r + hi * 2 ^ (r + n).

(** The index [full] with its [n]-bit slice at bit [r] replaced by [v]. *)
Definition splice (r n full v : Z) : Z := full + (v - slice r n full) * 2 ^ r.

(** The map of the two halves of a [n]-bit state: the low half [a] stays and
    the high half [b] becomes [b + c * a], wrapped to its width. *)
Definition halves_map (n c e : Z) : Z :=
  let sa := n / 2 in
  let sb := (n + 1) / 2 in
  e mod 2 ^ sa + Z.shiftl ((e / 2 ^ sa + c * (e mod 2 ^ sa)) mod 2 ^ sb) sa.

(** Modelled from the spec: the dense-matrix equivalence that the test
    utilities of the repository assert.  The matrix has a one in row [r] of
    column [c] exactly when the shader, at the output position whose slice
    is [r], reads the position whose slice is [c]; all other bits of the
    position stay. *)
Definition acts_like_matrix
    (f : CircuitEvalContext -> Completion WglConfiguredShader)
    (n : Z) (M : Matrix) : Prop :=
  mat_size M = 2 ^ n /\
  forall ctx lo hi r c,
    0 <= row ctx <= 30 -> 0 <= lo < 2 ^ row ctx -> 0 <= hi ->
    0 <= r < 2 ^ n -> 0 <= c < 2 ^ n ->
    exists cs, f ctx = Normal cs /\
      let reads := source_index cs (inject_Z (embed (row ctx) n lo r hi)) in
      let at_c := inject_Z (embed (row ctx) n lo c hi) in
      (cell M r c = 1 /\ reads = at_c) \/ (cell M r c = 0 /\ reads <> at_c).

(** A gate exposes a known matrix and its shader acts like that matrix. *)
Definition exposes_agreeing_matrix (g : Gate) (n : Z) : Prop :=
  exists M f,
    knownMatrix g = Some M /\ customShader g = Some f /\ acts_like_matrix f n M.

(** The body of a configured shader on a ket, and a ket with another value
    in the place of [out_id]. *)
Definition apply_body (cs : WglConfiguredShader) (k : Ket) : Q :=
  body (shader cs) (args cs) k.

Definition with_out_id (k : Ket) (o : Q) : Ket :=
  {| out_id := o; full_out_id := full_out_id k; span := span k |}.

(** Contexts for the examples. *)
Definition ctx_of (r : Z) (ranges : list (string * Range)) : CircuitEvalContext :=
  {| row := r; customContextFromGates := list_to_map ranges |}.

Definition ctx_AB : CircuitEvalContext :=
  ctx_of 0 [("Input Range A", {| offset := 1; length := 3 |});
            ("Input Range B", {| offset := 4; length := 2 |})].

(** The six comparison gates, each with the integer comparison that its
    name states. *)
Definition comparison_gates : list (Gate * (Z -> Z -> bool)) :=
  [(ArithmeticGates.ALessThanB, Z.ltb);
   (ArithmeticGates.AGreaterThanB, Z.gtb);
   (ArithmeticGates.ALessThanOrEqualToB, Z.leb);
   (ArithmeticGates.AGreaterThanOrEqualToB, Z.geb);
   (ArithmeticGates.AEqualToB, Z.eqb);
   (ArithmeticGates.ANotEqualToB, fun a b => negb (a =? b))].

(** The value that the body of a comparison gate answers for the target bit
    [o] at the position [f], when the evaluation yields a shader. *)
Definition toggle_of (g : Gate) (ctx : CircuitEvalContext) (o f : Z) : option Q :=
  match evaluate g ctx with
  | Some (Normal cs) => Some (apply_body cs (ketZ o f 2))
  | _ => None
  end.

(** A texture of two by two pixels, all of them zero. *)
Definition tex_2x2 : WglTexture :=
  {| width := 2; height := 2; texel := fun _ _ => Vec4 0 0 0 0 |}.

(** The shader that [customComparisonShader] configures in a context that
    holds the ranges [A] and [B]. *)
Definition comparison_program (compareCode : Q -> Q -> bool)
    (ctx : CircuitEvalContext) (A B : Range) : WglConfiguredShader :=
  withArgs (comparison_shader compareCode) (ketArgs ctx 1)
    [WglArg_float "lhsOffset" (inject_Z (JS.shl 1 (offset A)));
     WglArg_float "rhsOffset" (inject_Z (JS.shl 1 (offset B)));
     WglArg_float "lhsSpan" (inject_Z (JS.shl 1 (length A)));
     WglArg_float "rhsSpan" (inject_Z (JS.shl 1 (length B)))].

(** A range lies off the bit [r]. *)
Definition off_bit (A : Range) (r : Z) : Prop :=
  offset A + length A <= r \/ r + 1 <= offset A.

(** A matrix of size [2^n] is a permutation matrix: its cells are zero or
    one, every column has its one in exactly one row and every row has its
    one in exactly one column. *)
Definition is_permutation_matrix (n : Z) (M : Matrix) : Prop :=
  mat_size M = 2 ^ n /\
  (forall r c, cell M r c = 0 \/ cell M r c = 1) /\
  (forall c, 0 <= c < 2 ^ n ->
     exists r, 0 <= r < 2 ^ n /\ cell M r c = 1 /\
       forall r', cell M r' c = 1 -> r' = r) /\
  (forall r, 0 <= r < 2 ^ n ->
     exists c, 0 <= c < 2 ^ n /\ cell M r c = 1 /\
       forall c', 0 <= c' < 2 ^ n -> cell M r c' = 1 -> c' = c).

(** Modelled from the spec: the texture that a draw call with the output
    part leaves behind.  The part is bound to the texture it draws into; the
    fragment of the pixel in column [c] of row [r] of the grid has its centre
    at [(c + 0.5, r + 0.5)], and nothing is drawn outside the grid. *)
Definition rendered (part : ShaderPart OutputCode) (w h : Z)
    (outputFor : Q -> bool) : WglTexture :=
  let target := {| width := w; height := h; texel := fun _ _ => Vec4 0 0 0 0 |} in
  {| width := w; height := h;
     texel := fun c r =>
       if (0 <=? c) && (c <? w) && (0 <=? r) && (r <? h)
       then main (code part) (argsFor part target) outputFor
                 (Vec2 (inject_Z c + (1 # 2)) (inject_Z r + (1 # 2)))
       else Vec4 0 0 0 0 |}.

(** The coordinate that [read_<name>] samples for the index [k] in a
    texture of the size [size]. *)
Definition read_uv (size : vec2) (k : Q) : vec2 :=
  Vec2 ((GLSL.mod_ k (v2x size) + (1 # 2)) / v2x size)
       ((GLSL.floor (k / v2x size) + (1 # 2)) / v2y size).

(** * Properties *)

(** ** Integer-valued floats *)

Lemma ToInt32_small z : - 2 ^ 31 <= z < 2 ^ 31 -> JS.ToInt32 z = z.
Proof.
  intros Hz. unfold JS.ToInt32.
  rewrite Z.mod_small; lia.
Qed.

Lemma pow2_pos n : 0 <= n -> 0 < 2 ^ n.
Proof. intros. apply Z.pow_pos_nonneg; lia. Qed.

Lemma pow2_le_mono a b : 0 <= a <= b -> 2 ^ a <= 2 ^ b.
Proof. intros. apply Z.pow_le_mono_r; lia. Qed.

Lemma pow2_le_30 n : 0 <= n <= 30 -> 0 < 2 ^ n <= 1073741824.
Proof.
  intros Hn. split; [apply pow2_pos; lia|].
  change 1073741824 with (2 ^ 30). apply pow2_le_mono; lia.
Qed.

(** [1 << n] is the power of two for a shift count that does not reach the
    sign bit. *)
Lemma shl_1_pow2 n : 0 <= n <= 30 -> JS.shl 1 n = 2 ^ n.
Proof.
  intros Hn. unfold JS.shl.
  rewrite (ToInt32_small 1) by lia.
  rewrite Z.mod_small by lia.
  rewrite Z.shiftl_1_l.
  apply ToInt32_small.
  pose proof (pow2_le_30 n Hn). lia.
Qed.

Lemma floor_Z z : GLSL.floor (inject_Z z) = inject_Z z.
Proof. unfold GLSL.floor. now rewrite Qfloor_Z. Qed.

Lemma floor_div_Z a b : GLSL.floor (inject_Z a / inject_Z b) = inject_Z (a / b).
Proof. unfold GLSL.floor. now rewrite <- Zdiv_Qdiv. Qed.

Lemma minus_Z a b : (inject_Z a - inject_Z b)%Q = inject_Z (a - b).
Proof.
  unfold Qminus. now rewrite <- inject_Z_opp, <- inject_Z_plus.
Qed.

Lemma mod_Z a b : GLSL.mod_ (inject_Z a) (inject_Z b) = inject_Z (a mod b).
Proof.
  unfold GLSL.mod_. rewrite floor_div_Z, <- inject_Z_mult, minus_Z.
  f_equal.
  destruct (Z.eq_dec b 0) as [-> | Hb].
  - rewrite Z.mod_0_r. lia.
  - now rewrite (Z.mod_eq a b Hb).
Qed.

Lemma aux_range_Z full so ss :
  aux_range (inject_Z full) (inject_Z so) (inject_Z ss)
  = inject_Z ((full / so) mod ss).
Proof. unfold aux_range. now rewrite floor_div_Z, mod_Z. Qed.

Lemma Qle_bool_Z a b : Qle_bool (inject_Z a) (inject_Z b) = (a <=? b).
Proof.
  apply eq_true_iff_eq.
  rewrite Qle_bool_iff, <- Zle_Qle, Z.leb_le. reflexivity.
Qed.

Lemma Qeq_bool_Z a b : Qeq_bool (inject_Z a) (inject_Z b) = (a =? b).
Proof.
  apply eq_true_iff_eq.
  rewrite Qeq_bool_iff, inject_Z_injective, Z.eqb_eq. reflexivity.
Qed.

Lemma ge_Z a b : GLSL.ge (inject_Z a) (inject_Z b) = (b <=? a).
Proof. apply Qle_bool_Z. Qed.

Lemma le_Z a b : GLSL.le (inject_Z a) (inject_Z b) = (a <=? b).
Proof. apply Qle_bool_Z. Qed.

Lemma gt_Z a b : GLSL.gt (inject_Z a) (inject_Z b) = (b <? a).
Proof. unfold GLSL.gt. rewrite Qle_bool_Z. lia. Qed.

Lemma lt_Z a b : GLSL.lt (inject_Z a) (inject_Z b) = (a <? b).
Proof. unfold GLSL.lt. rewrite Qle_bool_Z. lia. Qed.

Lemma eq_Z a b : GLSL.eq (inject_Z a) (inject_Z b) = (a =? b).
Proof. apply Qeq_bool_Z. Qed.

Lemma ne_Z a b : GLSL.ne (inject_Z a) (inject_Z b) = negb (a =? b).
Proof. unfold GLSL.ne. now rewrite Qeq_bool_Z. Qed.

(** ** The bodies on integer kets *)

Ltac unfold_body :=
  cbn [body shader args ket withArgs ketShaderPermute incrementShader FLIP_SHADER
       FLIP_SHADER_2 ADDITION_SHADER comparison_shader
       uniform_float String.eqb Ascii.eqb Bool.eqb
       out_id full_out_id span ketZ].

Lemma ket_at_Z k full :
  ket_at k (inject_Z full)
  = ketZ ((full / 2 ^ ket_row k) mod 2 ^ ket_span k) full (2 ^ ket_span k).
Proof. unfold ket_at, ketZ. now rewrite floor_div_Z, mod_Z. Qed.

Lemma increment_body_Z amount o f s :
  body incrementShader [WglArg_float "amount" (inject_Z amount)] (ketZ o f s)
  = inject_Z ((o - amount + s) mod s).
Proof.
  unfold_body. now rewrite minus_Z, <- inject_Z_plus, mod_Z.
Qed.

Lemma flip_body_Z so ss o f s :
  body FLIP_SHADER
    [WglArg_float "srcOffset" (inject_Z so); WglArg_float "srcSpan" (inject_Z ss)]
    (ketZ o f s)
  = inject_Z (let d := (f / so) mod ss in
              if d <=? o then o else (d - 1 - o) mod s).
Proof.
  unfold_body. rewrite aux_range_Z, ge_Z.
  cbv zeta. destruct (_ <=? o); [reflexivity|].
  change 1%Q with (inject_Z 1).
  now rewrite !minus_Z, mod_Z.
Qed.

Lemma flip2_body_Z so ss o f s :
  body FLIP_SHADER_2
    [WglArg_float "srcOffset" (inject_Z so); WglArg_float "srcSpan" (inject_Z ss)]
    (ketZ o f s)
  = inject_Z (let d := (f / so) mod ss in
              if d <? o then o else (d - o) mod s).
Proof.
  unfold_body. rewrite aux_range_Z, gt_Z.
  cbv zeta. destruct (_ <? o); [reflexivity|].
  now rewrite !minus_Z, mod_Z.
Qed.

Lemma addition_body_Z so ss factor o f s :
  body ADDITION_SHADER
    [WglArg_float "srcOffset" (inject_Z so); WglArg_float "srcSpan" (inject_Z ss);
     WglArg_float "factor" (inject_Z factor)]
    (ketZ o f s)
  = inject_Z ((o + s - ((f / so) mod ss * factor) mod s) mod s).
Proof.
  unfold_body. rewrite aux_range_Z.
  now rewrite <- inject_Z_mult, mod_Z, <- inject_Z_plus, minus_Z, mod_Z.
Qed.

Lemma comparison_body_Z cmp lo ls ro rs o f s :
  body (comparison_shader cmp)
    [WglArg_float "lhsOffset" (inject_Z lo); WglArg_float "rhsOffset" (inject_Z ro);
     WglArg_float "lhsSpan" (inject_Z ls); WglArg_float "rhsSpan" (inject_Z rs)]
    (ketZ o f s)
  = inject_Z ((o + (if cmp (inject_Z ((f / lo) mod ls)) (inject_Z ((f / ro) mod rs))
                    then 1 else 0)) mod 2).
Proof.
  unfold_body. rewrite !aux_range_Z.
  destruct (cmp _ _).
  - change 1%Q with (inject_Z 1). change 2%Q with (inject_Z 2).
    now rewrite <- inject_Z_plus, mod_Z.
  - change 0%Q with (inject_Z 0). change 2%Q with (inject_Z 2).
    now rewrite <- inject_Z_plus, mod_Z.
Qed.

(** ** C1: reading an auxiliary range *)

(** The value a body reads for a range, from the uniforms the configured
    shader binds under the two given names. *)
Lemma aux_range_shl full o L :
  0 <= o <= 30 -> 0 <= L <= 30 ->
  aux_range (inject_Z full) (inject_Z (JS.shl 1 o)) (inject_Z (JS.shl 1 L))
  = inject_Z ((full / 2 ^ o) mod 2 ^ L).
Proof.
  intros Ho HL. now rewrite aux_range_Z, !shl_1_pow2.
Qed.

(** C1. For a non-negative integer [full_out_id] and an auxiliary range at
    bit offset [o] of length [L] (a range of qubits: up to bit 30 the host's
    [1 << o] and [1 << L] are the powers of two), the value that the flip,
    addition and comparison shaders read for the range, from the uniforms
    their host functions bind, is [mod(floor(full_out_id / 2^o), 2^L)], and
    the bodies depend on [full_out_id] through that value only. *)
Theorem C1_aux_range_extraction
    (ctx : CircuitEvalContext) (cmp : Q -> Q -> bool)
    (span factor full o L o' L' x S : Z) :
  0 <= full ->
  0 <= o <= 30 -> 0 <= L <= 30 -> 0 <= o' <= 30 -> 0 <= L' <= 30 ->
  customContextFromGates ctx !! "Input Range A"
    = Some {| offset := o; length := L |} ->
  customContextFromGates ctx !! "Input Range B"
    = Some {| offset := o'; length := L' |} ->
  let d := (full / 2 ^ o) mod 2 ^ L in
  let d' := (full / 2 ^ o') mod 2 ^ L' in
  let k := ketZ x full S in
  let read (cs : WglConfiguredShader) (off sp : string) :=
    aux_range (full_out_id k)
      (uniform_float (args cs) off) (uniform_float (args cs) sp) in
  (read (flipShaderFunc ctx span o L) "srcOffset" "srcSpan" = inject_Z d /\
   apply_body (flipShaderFunc ctx span o L) k
   = inject_Z (if d <=? x then x else (d - 1 - x) mod S)) /\
  (read (flipShaderFunc2 ctx span o L) "srcOffset" "srcSpan" = inject_Z d /\
   apply_body (flipShaderFunc2 ctx span o L) k
   = inject_Z (if d <? x then x else (d - x) mod S)) /\
  (read (additionShaderFunc ctx span o L factor) "srcOffset" "srcSpan"
   = inject_Z d /\
   apply_body (additionShaderFunc ctx span o L factor) k
   = inject_Z ((x + S - (d * factor) mod S) mod S)) /\
  exists cs, customComparisonShader cmp ctx = Normal cs /\
    read cs "lhsOffset" "lhsSpan" = inject_Z d /\
    read cs "rhsOffset" "rhsSpan" = inject_Z d' /\
    apply_body cs k
    = inject_Z ((x + (if cmp (inject_Z d) (inject_Z d') then 1 else 0)) mod 2).
Proof.
  intros _ Ho HL Ho' HL' HA HB d d' k read. subst read k d d'.
  unfold apply_body, flipShaderFunc, flipShaderFunc2, additionShaderFunc.
  cbn [shader args withArgs uniform_float String.eqb Ascii.eqb Bool.eqb
       full_out_id ketZ].
  rewrite flip_body_Z, flip2_body_Z, addition_body_Z.
  rewrite !aux_range_shl, !shl_1_pow2 by lia. cbv zeta.
  split; [now split|]. split; [now split|]. split; [now split|].
  unfold customComparisonShader, get_range. rewrite HA, HB.
  cbn [bind offset length].
  eexists. split; [reflexivity|].
  cbn [shader args withArgs uniform_float String.eqb Ascii.eqb Bool.eqb].
  rewrite comparison_body_Z, !aux_range_shl, !shl_1_pow2 by lia.
  repeat split.
Qed.

(** The range at offset 1 of length 3 reads 3 from [full_out_id = 22]. *)
Lemma C1_example_22 :
  exists cs, customComparisonShader GLSL.lt ctx_AB = Normal cs /\
    aux_range (inject_Z 22)
      (uniform_float (args cs) "lhsOffset") (uniform_float (args cs) "lhsSpan")
    = inject_Z 3.
Proof.
  destruct (C1_aux_range_extraction ctx_AB GLSL.lt 3 1 22 1 3 4 2 0 8)
    as (_ & _ & _ & cs & Hcs & Hl & _);
    [lia | lia | lia | lia | lia | reflexivity | reflexivity |].
  exists cs. split; [exact Hcs | exact Hl].
Defined.

(** ** C9: a missing auxiliary range *)

Lemma get_range_absent (m : gmap string Range) key :
  m !! key = None -> get_range m key = Throw TypeError.
Proof. intros H. unfold get_range. now rewrite H. Qed.

Lemma get_range_cases (m : gmap string Range) key :
  get_range m key = Throw TypeError \/ exists r, get_range m key = Normal r.
Proof. unfold get_range. destruct (m !! key); eauto. Qed.

Lemma evaluate_family (f : GateFamily) g :
  g ∈ family_all f -> exists span, g = ofSize f span.
Proof.
  unfold family_all. intros Hg.
  apply list_elem_of_fmap in Hg as (span & -> & _). now exists span.
Qed.

Lemma comparison_absent cmp ctx key :
  key ∈ ["Input Range A"; "Input Range B"] ->
  customContextFromGates ctx !! key = None ->
  customComparisonShader cmp ctx = Throw TypeError.
Proof.
  intros Hkey Hnone. unfold customComparisonShader.
  apply elem_of_cons in Hkey as [-> | Hkey].
  - now rewrite (get_range_absent _ _ Hnone).
  - apply list_elem_of_singleton in Hkey as ->.
    rewrite (get_range_absent _ "Input Range B" Hnone).
    destruct (get_range_cases (customContextFromGates ctx) "Input Range A")
      as [-> | [r ->]]; reflexivity.
Qed.

(** C9. For every gate of the file and every auxiliary range name the gate
    declares as required, evaluating the gate's shader in a context whose
    mapping lacks that name throws: the call ends in an error and yields no
    configured shader.  The +A, -A and the two flip families declare
    "Input Range A"; the six comparison gates declare "Input Range A" and
    "Input Range B". *)
Theorem C9_missing_context_throws (g : Gate) (key : string)
    (ctx : CircuitEvalContext) :
  g ∈ ArithmeticGates.all ->
  key ∈ requiredContextKeys g ->
  customContextFromGates ctx !! key = None ->
  evaluate g ctx = Some (Throw TypeError) /\
  (forall cs, evaluate g ctx <> Some (Normal cs)) /\
  (forall span,
     requiredContextKeys (ofSize ArithmeticGates.PlusAFamily span)
       = ["Input Range A"] /\
     requiredContextKeys (ofSize ArithmeticGates.MinusAFamily span)
       = ["Input Range A"] /\
     requiredContextKeys (ofSize ArithmeticGates.FlipBelow span)
       = ["Input Range A"] /\
     requiredContextKeys (ofSize ArithmeticGates.FlipBelow2 span)
       = ["Input Range A"]) /\
  (forall c, c ∈ [ArithmeticGates.ALessThanB; ArithmeticGates.AGreaterThanB;
                  ArithmeticGates.ALessThanOrEqualToB;
                  ArithmeticGates.AGreaterThanOrEqualToB;
                  ArithmeticGates.AEqualToB; ArithmeticGates.ANotEqualToB] ->
     requiredContextKeys c = ["Input Range A"; "Input Range B"]).
Proof.
  intros Hg Hkey Hnone.
  assert (Hthrow : evaluate g ctx = Some (Throw TypeError)).
  { unfold ArithmeticGates.all in Hg.
    repeat (apply elem_of_app in Hg as [Hg | Hg]);
      try (apply evaluate_family in Hg as [span ->]; cbn in Hkey;
           first [ now apply not_elem_of_nil in Hkey
                 | apply list_elem_of_singleton in Hkey as ->;
                   cbn; unfold evaluate; cbn;
                   now rewrite (get_range_absent _ _ Hnone) ]).
    repeat (apply elem_of_cons in Hg as [-> | Hg]);
      try (unfold evaluate; cbn in *;
           now rewrite (comparison_absent _ ctx key Hkey Hnone)).
    now apply not_elem_of_nil in Hg. }
  split; [exact Hthrow|]. split.
  - intros cs. rewrite Hthrow. congruence.
  - split; [intros span; repeat split|].
    intros c Hc.
    repeat (apply elem_of_cons in Hc as [-> | Hc]); try reflexivity.
    now apply not_elem_of_nil in Hc.
Qed.

(** The -A gate of span 3 in a context that holds only the range B. *)
Lemma C9_example_minus_A :
  evaluate (ofSize ArithmeticGates.MinusAFamily 3)
    (ctx_of 0 [("Input Range B", {| offset := 4; length := 2 |})])
  = Some (Throw TypeError).
Proof.
  apply (C9_missing_context_throws
           (ofSize ArithmeticGates.MinusAFamily 3) "Input Range A").
  - unfold ArithmeticGates.all.
    do 5 (apply elem_of_app; right). apply elem_of_app; left.
    apply list_elem_of_fmap. exists 3. split; [reflexivity|].
    apply elem_of_seqZ. cbn. lia.
  - cbn. apply list_elem_of_singleton. reflexivity.
  - reflexivity.
Defined.

(** ** C7, C8, C10: the boolean parts *)

Lemma bool_input_size name tex :
  uniform_vec2 (argsFor (boolInputPartGetter name) tex) ("_gen_" ++ name ++ "_size")
  = Vec2 (inject_Z (width tex)) (inject_Z (height tex)).
Proof. cbn. now rewrite String.eqb_refl. Qed.

Lemma bool_input_tex name tex :
  uniform_sampler2D (argsFor (boolInputPartGetter name) tex)
    ("_gen_" ++ name ++ "_tex") = tex.
Proof. cbn. now rewrite String.eqb_refl. Qed.

Lemma len_input name tex :
  len_ (code (boolInputPartGetter name)) (argsFor (boolInputPartGetter name) tex)
  = inject_Z (width tex * height tex * 4).
Proof.
  cbn [code len_ boolInputPartGetter]. rewrite bool_input_size.
  cbn [v2x v2y]. now rewrite !inject_Z_mult.
Qed.

Lemma len_output_pixels tex :
  len_output (code BOOL_OUTPUT_PART) (argsFor BOOL_OUTPUT_PART tex)
  = inject_Z (width tex * height tex).
Proof. cbn. now rewrite inject_Z_mult. Qed.

(** C8 (the code departs from it). On a texture of two by two pixels the
    boolean coder holds [2^(sizePower - 0) = 4] logical elements, one per
    pixel, and [len_output] of the output part answers 4; [len_<name>] of
    the input part answers 16, four times the pixel count. *)
Theorem C8_len_input_2x2 :
  len_ (code (inputPartGetter BOOL_TYPE_CODER "a"))
       (argsFor (inputPartGetter BOOL_TYPE_CODER "a") tex_2x2) = inject_Z 16 /\
  2 ^ arrayPowerSizeOfTexture BOOL_TYPE_CODER tex_2x2 = 4 /\
  width tex_2x2 * height tex_2x2 = 4 /\
  len_output (code (outputPart BOOL_TYPE_CODER))
             (argsFor (outputPart BOOL_TYPE_CODER) tex_2x2) = inject_Z 4.
Proof. repeat split. Qed.

Lemma float_cases b : GLSL.float b = 1%Q \/ GLSL.float b = 0%Q.
Proof. destruct b; auto. Qed.

Lemma pixel_index_unique w i j i' j' :
  0 <= i < w -> 0 <= i' < w -> j * w + i = j' * w + i' -> i = i' /\ j = j'.
Proof.
  intros Hi Hi' Heq.
  assert (j = j') as -> by (destruct (Z.lt_trichotomy j j') as [H | [H | H]]; nia).
  lia.
Qed.

Lemma pixel_index_range w h i j :
  0 <= i < w -> 0 <= j < h -> 0 <= j * w + i < w * h.
Proof. intros Hi Hj. nia. Qed.

(** C10. For the fragment at [(fragX, fragY)] the boolean output part writes
    [(v, 0, 0, 0)], where [v] is [1] or [0] and is the boolean that
    [outputFor] answers at [k = (fragY - 0.5) * width + (fragX - 0.5)].  At
    the centre of the pixel in column [i] of row [j] this [k] is
    [j * width + i]; different pixels of the grid get different indices and
    every index stays below the pixel count. *)
Theorem C10_bool_output_pixel (tex : WglTexture) (outputFor : Q -> bool)
    (fragX fragY : Q) :
  let u := argsFor BOOL_OUTPUT_PART tex in
  let k := ((fragY - (1 # 2)) * inject_Z (width tex) + (fragX - (1 # 2)))%Q in
  let v := GLSL.float (outputFor k) in
  main (code BOOL_OUTPUT_PART) u outputFor (Vec2 fragX fragY) = Vec4 v 0 0 0 /\
  (v = 1%Q \/ v = 0%Q) /\
  (v = 1%Q <-> outputFor k = true) /\
  (forall i j : Z,
     (fragX == inject_Z i + (1 # 2))%Q -> (fragY == inject_Z j + (1 # 2))%Q ->
     (k == inject_Z (j * width tex + i))%Q) /\
  (forall i j i' j' : Z,
     0 <= i < width tex -> 0 <= i' < width tex ->
     j * width tex + i = j' * width tex + i' -> i = i' /\ j = j') /\
  (forall i j : Z,
     0 <= i < width tex -> 0 <= j < height tex ->
     0 <= j * width tex + i < width tex * height tex).
Proof.
  intros u k v. split; [reflexivity|].
  split; [apply float_cases|].
  split; [subst v; destruct (outputFor k); cbn; split; congruence|].
  split; [|split].
  - intros i j Hx Hy. subst k. rewrite Hx, Hy.
    rewrite inject_Z_plus, inject_Z_mult. ring.
  - intros i j i' j'. apply pixel_index_unique.
  - intros i j. apply pixel_index_range.
Qed.

(** Two fragments of the second row of a two by two grid, for an
    [outputFor] that holds at index 3 only. *)
Lemma C10_example_pixel :
  main (code BOOL_OUTPUT_PART) (argsFor BOOL_OUTPUT_PART tex_2x2)
       (fun k => Qeq_bool k 3) (Vec2 (3 # 2) (3 # 2)) = Vec4 1 0 0 0 /\
  main (code BOOL_OUTPUT_PART) (argsFor BOOL_OUTPUT_PART tex_2x2)
       (fun k => Qeq_bool k 3) (Vec2 (1 # 2) (3 # 2)) = Vec4 0 0 0 0.
Proof.
  split.
  - exact (proj1 (C10_bool_output_pixel tex_2x2 (fun k => Qeq_bool k 3)
                    (3 # 2) (3 # 2))).
  - exact (proj1 (C10_bool_output_pixel tex_2x2 (fun k => Qeq_bool k 3)
                    (1 # 2) (3 # 2))).
Defined.

Lemma inject_Z_nonzero w : w <> 0 -> ~ (inject_Z w == 0)%Q.
Proof.
  intros Hw Heq. apply Hw. change 0%Q with (inject_Z 0) in Heq.
  rewrite inject_Z_injective in Heq. exact Heq.
Qed.

(** A pixel centre, scaled back to the grid, falls in its own cell. *)
Lemma Qfloor_centre c w :
  w <> 0 ->
  Qfloor ((inject_Z c + (1 # 2)) / inject_Z w * inject_Z w) = c.
Proof.
  intros Hw.
  assert (Hq : ((inject_Z c + (1 # 2)) / inject_Z w * inject_Z w
                == inject_Z c + (1 # 2))%Q).
  { rewrite Qmult_comm. apply Qmult_div_r. now apply inject_Z_nonzero. }
  rewrite Hq. cbn. Z.div_mod_to_equations. lia.
Qed.

(** C7. For a non-negative integer [k] and a texture of width [w] and height
    [h], [read_<name>(k)] samples the coordinate
    [((k mod w) + 0.5, floor(k / w) + 0.5)] divided componentwise by [(w, h)],
    which is the centre of the pixel in column [k mod w] of row [k / w], and
    answers [1] when the first component stored there equals [1] and [0] for
    every other stored value. *)
Theorem C7_bool_input_read (name : string) (tex : WglTexture) (k : Z) :
  0 <= k -> 0 < width tex -> 0 < height tex ->
  let part := boolInputPartGetter name in
  let uv := Vec2 ((inject_Z (k mod width tex) + (1 # 2)) / inject_Z (width tex))
                 ((inject_Z (k / width tex) + (1 # 2)) / inject_Z (height tex)) in
  let stored := v4x (texture2D tex uv) in
  let result := read_ (code part) (argsFor part tex) (inject_Z k) in
  result = GLSL.float (Qeq_bool stored 1) /\
  ((stored == 1)%Q -> result = 1%Q) /\
  (~ (stored == 1)%Q -> result = 0%Q) /\
  texture2D tex uv = texel tex (k mod width tex) (k / width tex).
Proof.
  intros _ Hw Hh part uv stored result.
  assert (Hres : result = GLSL.float (Qeq_bool stored 1)).
  { subst result part. cbn [code read_ boolInputPartGetter].
    rewrite bool_input_size, bool_input_tex. cbn [v2x v2y].
    now rewrite mod_Z, floor_div_Z. }
  split; [exact Hres|]. rewrite Hres.
  split; [|split].
  - intros Hone. now rewrite (Qeq_eq_bool _ _ Hone).
  - intros Hother. destruct (Qeq_bool stored 1) eqn:Heq; [|reflexivity].
    now apply Qeq_bool_eq in Heq.
  - subst uv. unfold texture2D. cbn [v2x v2y].
    now rewrite !Qfloor_centre by lia.
Qed.

(** Index 3 of a two by two texture whose last pixel stores 1 and whose
    other pixels store one half. *)
Lemma C7_example_read :
  let tex := {| width := 2; height := 2;
                texel := fun c r => if (c =? 1) && (r =? 1)
                                    then Vec4 1 0 0 0
                                    else Vec4 (1 # 2) 0 0 0 |} in
  read_ (code (boolInputPartGetter "a")) (argsFor (boolInputPartGetter "a") tex)
        (inject_Z 3) = 1%Q.
Proof.
  intros tex.
  destruct (C7_bool_input_read "a" tex 3) as (_ & Hone & _);
    [lia | reflexivity | reflexivity |].
  apply Hone. reflexivity.
Defined.

(** ** C3: a permutation and its inverse *)

Lemma mod_sub_mod S x y : 0 < S -> (x + S - y mod S) mod S = (x - y) mod S.
Proof.
  intros HS. rewrite (Z.mod_eq y S) by lia.
  replace (x + S - (y - S * (y / S))) with (x - y + (1 + y / S) * S) by lia.
  now rewrite Z.mod_add by lia.
Qed.

Lemma offset_then_back S o a :
  0 < S -> 0 <= o < S ->
  ((o - a + S) mod S - - a + S) mod S = o.
Proof.
  intros HS Ho.
  replace ((o - a + S) mod S - - a + S) with ((o - a + S) mod S + (a + S)) by lia.
  rewrite Z.add_mod_idemp_l by lia.
  replace (o - a + S + (a + S)) with (o + 2 * S) by lia.
  rewrite Z.mod_add by lia. now apply Z.mod_small.
Qed.

Lemma add_then_back S o d c :
  0 < S -> 0 <= o < S ->
  ((o + S - (d * c) mod S) mod S + S - (d * - c) mod S) mod S = o.
Proof.
  intros HS Ho.
  rewrite !mod_sub_mod by lia.
  rewrite Zminus_mod_idemp_l.
  replace (o - d * c - d * - c) with o by lia.
  now apply Z.mod_small.
Qed.

Lemma evaluate_increment n ctx cs :
  evaluate (ofSize ArithmeticGates.IncrementFamily n) ctx = Some (Normal cs) ->
  cs = incrementShaderFunc ctx n 1.
Proof. cbn. congruence. Qed.

Lemma evaluate_decrement n ctx cs :
  evaluate (ofSize ArithmeticGates.DecrementFamily n) ctx = Some (Normal cs) ->
  cs = incrementShaderFunc ctx n (-1).
Proof. cbn. congruence. Qed.

Lemma evaluate_plus_A n ctx cs :
  evaluate (ofSize ArithmeticGates.PlusAFamily n) ctx = Some (Normal cs) ->
  exists A, customContextFromGates ctx !! "Input Range A" = Some A /\
            cs = additionShaderFunc ctx n (offset A) (length A) 1.
Proof.
  cbn. unfold get_range. destruct (_ !! _) as [A|]; cbn; [|congruence].
  intros [= <-]. now exists A.
Qed.

Lemma evaluate_minus_A n ctx cs :
  evaluate (ofSize ArithmeticGates.MinusAFamily n) ctx = Some (Normal cs) ->
  exists A, customContextFromGates ctx !! "Input Range A" = Some A /\
            cs = additionShaderFunc ctx n (offset A) (length A) (-1).
Proof.
  cbn. unfold get_range. destruct (_ !! _) as [A|]; cbn; [|congruence].
  intros [= <-]. now exists A.
Qed.

(** C3. For every span of the families (1 to 16) and every [out_id] in
    [[0, 2^span)], the body of the decrement gate undoes the body of the
    increment gate and conversely, and the body of the -A gate undoes the
    body of the +A gate and conversely when both read the same value of
    the auxiliary range (the same [full_out_id]). *)
Theorem C3_inverse_pairs (n : Z) (ctx : CircuitEvalContext)
    (inc dec plus minus : WglConfiguredShader) (o f : Z) :
  1 <= n <= 16 -> 0 <= o < 2 ^ n ->
  evaluate (ofSize ArithmeticGates.IncrementFamily n) ctx = Some (Normal inc) ->
  evaluate (ofSize ArithmeticGates.DecrementFamily n) ctx = Some (Normal dec) ->
  evaluate (ofSize ArithmeticGates.PlusAFamily n) ctx = Some (Normal plus) ->
  evaluate (ofSize ArithmeticGates.MinusAFamily n) ctx = Some (Normal minus) ->
  let k := ketZ o f (2 ^ n) in
  apply_body dec (with_out_id k (apply_body inc k)) = out_id k /\
  apply_body inc (with_out_id k (apply_body dec k)) = out_id k /\
  apply_body minus (with_out_id k (apply_body plus k)) = out_id k /\
  apply_body plus (with_out_id k (apply_body minus k)) = out_id k.
Proof.
  intros Hn Ho Hinc Hdec Hplus Hminus k.
  apply evaluate_increment in Hinc as ->.
  apply evaluate_decrement in Hdec as ->.
  apply evaluate_plus_A in Hplus as (A & HA & ->).
  apply evaluate_minus_A in Hminus as (A' & HA' & ->).
  assert (A' = A) as -> by congruence.
  pose proof (pow2_pos n ltac:(lia)) as HS.
  subst k. unfold apply_body, incrementShaderFunc, additionShaderFunc.
  cbn [shader args withArgs].
  rewrite !increment_body_Z, !addition_body_Z.
  unfold with_out_id. cbn [out_id full_out_id span ketZ].
  change (Build_Ket (inject_Z ?a) (inject_Z ?b) (inject_Z ?c)) with (ketZ a b c).
  rewrite !increment_body_Z, !addition_body_Z.
  repeat split; f_equal.
  - now apply (offset_then_back (2 ^ n) o 1).
  - now apply (offset_then_back (2 ^ n) o (-1)).
  - now apply (add_then_back (2 ^ n) o _ 1).
  - now apply (add_then_back (2 ^ n) o _ (-1)).
Qed.

(** Span 3, state 5. *)
Lemma C3_example_span_3 :
  let k := ketZ 5 22 (2 ^ 3) in
  apply_body (incrementShaderFunc ctx_AB 3 (-1))
    (with_out_id k (apply_body (incrementShaderFunc ctx_AB 3 1) k)) = inject_Z 5 /\
  apply_body (additionShaderFunc ctx_AB 3 1 3 (-1))
    (with_out_id k (apply_body (additionShaderFunc ctx_AB 3 1 3 1) k)) = inject_Z 5.
Proof.
  intros k.
  destruct (C3_inverse_pairs 3 ctx_AB
              (incrementShaderFunc ctx_AB 3 1) (incrementShaderFunc ctx_AB 3 (-1))
              (additionShaderFunc ctx_AB 3 1 3 1)
              (additionShaderFunc ctx_AB 3 1 3 (-1)) 5 22)
    as (H1 & _ & H3 & _);
    [lia | cbn; lia | reflexivity | reflexivity | reflexivity | reflexivity |].
  split; [exact H1 | exact H3].
Defined.

(** ** C6: the two flips *)

Lemma flip_below_twice S d o :
  0 < S -> 0 <= o < S ->
  let flip x := if d <=? x then x else (d - 1 - x) mod S in
  flip (flip o) = o.
Proof.
  intros HS Ho flip. subst flip. cbv beta.
  destruct (Z.leb_spec d o) as [Hdo | Hod].
  - destruct (Z.leb_spec d o); [reflexivity | lia].
  - pose proof (Z.mod_le (d - 1 - o) S ltac:(lia) HS) as Hle.
    destruct (Z.leb_spec d ((d - 1 - o) mod S)) as [Hbad | _]; [lia|].
    rewrite Zminus_mod_idemp_r.
    replace (d - 1 - (d - 1 - o)) with o by lia.
    now apply Z.mod_small.
Qed.

Lemma flip_at_or_below_twice S d o :
  0 < S -> 0 <= o < S ->
  let flip x := if d <? x then x else (d - x) mod S in
  flip (flip o) = o.
Proof.
  intros HS Ho flip. subst flip. cbv beta.
  destruct (Z.ltb_spec d o) as [Hdo | Hod].
  - destruct (Z.ltb_spec d o); [reflexivity | lia].
  - pose proof (Z.mod_le (d - o) S ltac:(lia) HS) as Hle.
    destruct (Z.ltb_spec d ((d - o) mod S)) as [Hbad | _]; [lia|].
    rewrite Zminus_mod_idemp_r.
    replace (d - (d - o)) with o by lia.
    now apply Z.mod_small.
Qed.

Lemma evaluate_flip_below n ctx cs :
  evaluate (ofSize ArithmeticGates.FlipBelow n) ctx = Some (Normal cs) ->
  exists A, customContextFromGates ctx !! "Input Range A" = Some A /\
            cs = flipShaderFunc ctx n (offset A) (length A).
Proof.
  cbn. unfold get_range. destruct (_ !! _) as [A|]; cbn; [|congruence].
  intros [= <-]. now exists A.
Qed.

Lemma evaluate_flip_below2 n ctx cs :
  evaluate (ofSize ArithmeticGates.FlipBelow2 n) ctx = Some (Normal cs) ->
  exists A, customContextFromGates ctx !! "Input Range A" = Some A /\
            cs = flipShaderFunc2 ctx n (offset A) (length A).
Proof.
  cbn. unfold get_range. destruct (_ !! _) as [A|]; cbn; [|congruence].
  intros [= <-]. now exists A.
Qed.

(** C6. For every span of the families (1 to 16), every threshold read from
    the auxiliary range and every [out_id] in [[0, 2^span)], the body of the
    flip-below gate (identity when [out_id >= d], else
    [mod(d - 1 - out_id, 2^span)]) applied twice answers [out_id], and so
    does the body of the flip-at-or-below gate (identity when [out_id > d],
    else [mod(d - out_id, 2^span)]). *)
Theorem C6_flip_involution (n : Z) (ctx : CircuitEvalContext)
    (flip flip2 : WglConfiguredShader) (o f : Z) :
  1 <= n <= 16 -> 0 <= o < 2 ^ n ->
  evaluate (ofSize ArithmeticGates.FlipBelow n) ctx = Some (Normal flip) ->
  evaluate (ofSize ArithmeticGates.FlipBelow2 n) ctx = Some (Normal flip2) ->
  let k := ketZ o f (2 ^ n) in
  (exists d : Z,
     aux_range (full_out_id k) (uniform_float (args flip) "srcOffset")
               (uniform_float (args flip) "srcSpan") = inject_Z d /\
     aux_range (full_out_id k) (uniform_float (args flip2) "srcOffset")
               (uniform_float (args flip2) "srcSpan") = inject_Z d /\
     apply_body flip k
       = inject_Z (if d <=? o then o else (d - 1 - o) mod 2 ^ n) /\
     apply_body flip2 k
       = inject_Z (if d <? o then o else (d - o) mod 2 ^ n)) /\
  apply_body flip (with_out_id k (apply_body flip k)) = out_id k /\
  apply_body flip2 (with_out_id k (apply_body flip2 k)) = out_id k.
Proof.
  intros Hn Ho Hflip Hflip2 k.
  apply evaluate_flip_below in Hflip as (A & HA & ->).
  apply evaluate_flip_below2 in Hflip2 as (A' & HA' & ->).
  assert (A' = A) as -> by congruence.
  pose proof (pow2_pos n ltac:(lia)) as HS.
  subst k. unfold apply_body, flipShaderFunc, flipShaderFunc2.
  cbn [shader args withArgs].
  rewrite !flip_body_Z, !flip2_body_Z.
  unfold with_out_id. cbn [out_id full_out_id span ketZ].
  change (Build_Ket (inject_Z ?a) (inject_Z ?b) (inject_Z ?c)) with (ketZ a b c).
  rewrite !flip_body_Z, !flip2_body_Z. cbv zeta.
  split; [|split].
  - eexists. cbn [uniform_float String.eqb Ascii.eqb Bool.eqb].
    rewrite aux_range_Z. repeat split.
  - f_equal. now apply (flip_below_twice (2 ^ n)).
  - f_equal. now apply (flip_at_or_below_twice (2 ^ n)).
Qed.

(** Span 3, threshold 5, state 1. *)
Lemma C6_example_span_3 :
  let k := ketZ 1 10 (2 ^ 3) in
  let flip := flipShaderFunc ctx_AB 3 1 3 in
  let flip2 := flipShaderFunc2 ctx_AB 3 1 3 in
  apply_body flip (with_out_id k (apply_body flip k)) = inject_Z 1 /\
  apply_body flip2 (with_out_id k (apply_body flip2 k)) = inject_Z 1.
Proof.
  intros k flip flip2.
  destruct (C6_flip_involution 3 ctx_AB flip flip2 1 10) as (_ & H1 & H2);
    [lia | cbn; lia | reflexivity | reflexivity |].
  split; [exact H1 | exact H2].
Defined.

(** Span 3 and threshold 5 (the range at offset 1 of length 3 reads 5 from
    [full_out_id = 10]): each flip, applied twice, fixes every state. *)
Example flip_span_3_threshold_5 :
  aux_range (inject_Z 10) (inject_Z (JS.shl 1 1)) (inject_Z (JS.shl 1 3))
    = inject_Z 5 /\
  Forall (fun o =>
    let k := ketZ o 10 (2 ^ 3) in
    let flip := flipShaderFunc ctx_AB 3 1 3 in
    let flip2 := flipShaderFunc2 ctx_AB 3 1 3 in
    apply_body flip (with_out_id k (apply_body flip k)) = inject_Z o /\
    apply_body flip2 (with_out_id k (apply_body flip2 k)) = inject_Z o)
    [0; 1; 2; 3; 4; 5; 6; 7].
Proof. split; [reflexivity|]. repeat constructor. Qed.

(** ** Slices of an index *)

Lemma slice_add_high p q n x y :
  0 <= p -> 0 <= q -> p + q <= n ->
  slice p q (x + y * 2 ^ n) = slice p q x.
Proof.
  intros Hp Hq Hn. unfold slice.
  replace n with ((n - p - q) + q + p) by lia.
  rewrite !Z.pow_add_r by lia.
  pose proof (pow2_pos p Hp). pose proof (pow2_pos q Hq).
  rewrite Z.mul_assoc, Z.div_add by lia.
  rewrite Z.mul_assoc, Z.mod_add by lia.
  reflexivity.
Qed.

Lemma slice_small n e : 0 <= e < 2 ^ n -> slice 0 n e = e.
Proof.
  intros He. unfold slice. rewrite Z.pow_0_r, Z.div_1_r.
  now apply Z.mod_small.
Qed.

Lemma slice_range r n x : 0 <= n -> 0 <= slice r n x < 2 ^ n.
Proof. intros Hn. apply Z.mod_pos_bound. now apply pow2_pos. Qed.

Lemma slice_embed r n lo e hi p q :
  0 <= r -> 0 <= lo < 2 ^ r -> 0 <= p -> 0 <= q -> p + q <= n ->
  slice (r + p) q (embed r n lo e hi) = slice p q e.
Proof.
  intros Hr Hlo Hp Hq Hn.
  rewrite <- (slice_add_high p q n e hi Hp Hq Hn).
  unfold slice, embed.
  pose proof (pow2_pos r Hr). pose proof (pow2_pos p Hp).
  rewrite (Z.pow_add_r 2 r p), <- Z.div_div by lia.
  replace (lo + e * 2 ^ r + hi * 2 ^ (r + n)) with (lo + (e + hi * 2 ^ n) * 2 ^ r)
    by (rewrite Z.pow_add_r by lia; ring).
  rewrite Z.div_add, (Z.div_small lo) by lia.
  reflexivity.
Qed.

Lemma slice_embed_whole r n lo e hi :
  0 <= r -> 0 <= n -> 0 <= lo < 2 ^ r -> 0 <= e < 2 ^ n ->
  slice r n (embed r n lo e hi) = e.
Proof.
  intros Hr Hn Hlo He.
  replace r with (r + 0) at 1 by lia.
  rewrite slice_embed by lia. now apply slice_small.
Qed.

(** Two ranges that do not overlap can hold any pair of values. *)
Lemma disjoint_ranges_independent oA LA oB LB a b :
  0 <= oA -> 0 <= LA -> 0 <= oB -> 0 <= LB ->
  oA + LA <= oB \/ oB + LB <= oA ->
  0 <= a < 2 ^ LA -> 0 <= b < 2 ^ LB ->
  exists f, 0 <= f /\ slice oA LA f = a /\ slice oB LB f = b.
Proof.
  intros HoA HLA HoB HLB Hdisj Ha Hb.
  pose proof (pow2_pos oA HoA). pose proof (pow2_pos oB HoB).
  exists (a * 2 ^ oA + b * 2 ^ oB).
  split; [nia|].
  destruct Hdisj as [Hlow | Hlow].
  - split.
    + replace (a * 2 ^ oA + b * 2 ^ oB)
        with (embed oA LA 0 a (b * 2 ^ (oB - oA - LA))).
      * apply slice_embed_whole; lia.
      * unfold embed. replace oB with (oB - oA - LA + (oA + LA)) at 2 by lia.
        rewrite (Z.pow_add_r 2 (oB - oA - LA)) by lia. ring.
    + replace (a * 2 ^ oA + b * 2 ^ oB) with (embed oB LB (a * 2 ^ oA) b 0)
        by (unfold embed; ring).
      apply slice_embed_whole; try lia.
      split; [nia|].
      apply Z.lt_le_trans with (2 ^ (LA + oA)).
      * rewrite Z.pow_add_r by lia. nia.
      * apply pow2_le_mono. lia.
  - split.
    + replace (a * 2 ^ oA + b * 2 ^ oB) with (embed oA LA (b * 2 ^ oB) a 0)
        by (unfold embed; ring).
      apply slice_embed_whole; try lia.
      split; [nia|].
      apply Z.lt_le_trans with (2 ^ (LB + oB)).
      * rewrite Z.pow_add_r by lia. nia.
      * apply pow2_le_mono. lia.
    + replace (a * 2 ^ oA + b * 2 ^ oB)
        with (embed oB LB 0 b (a * 2 ^ (oA - oB - LB))).
      * apply slice_embed_whole; lia.
      * unfold embed. replace oA with (oA - oB - LB + (oB + LB)) at 2 by lia.
        rewrite (Z.pow_add_r 2 (oA - oB - LB)) by lia. ring.
Qed.

(** ** C5: the comparison gates *)

Lemma evaluate_comparison name blurb cmp ctx A B :
  customContextFromGates ctx !! "Input Range A" = Some A ->
  customContextFromGates ctx !! "Input Range B" = Some B ->
  evaluate (ArithmeticGates.comparison_gate name blurb cmp) ctx
  = Some (Normal (withArgs (comparison_shader cmp) (ketArgs ctx 1)
      [WglArg_float "lhsOffset" (inject_Z (JS.shl 1 (offset A)));
       WglArg_float "rhsOffset" (inject_Z (JS.shl 1 (offset B)));
       WglArg_float "lhsSpan" (inject_Z (JS.shl 1 (length A)));
       WglArg_float "rhsSpan" (inject_Z (JS.shl 1 (length B)))])).
Proof.
  intros HA HB. unfold evaluate. cbn.
  unfold customComparisonShader, get_range. now rewrite HA, HB.
Qed.

Lemma toggle_bit o (c : bool) :
  o = 0 \/ o = 1 ->
  (o + (if c then 1 else 0)) mod 2 = if c then (o + 1) mod 2 else o.
Proof. intros [-> | ->]; destruct c; reflexivity. Qed.

(** The comparison gates are built on the permutation shape: the claim as
    the specification states it, that they are expressed in the general
    transform shape, fails on the less-than gate. *)
Lemma C5_counterexample_shape :
  exists cs,
    evaluate ArithmeticGates.ALessThanB ctx_AB = Some (Normal cs) /\
    shape (shader cs) = Permutation /\
    shape (shader cs) <> GeneralTransform.
Proof.
  eexists. split; [reflexivity|]. split; [reflexivity|]. discriminate.
Qed.

(** C5, amended. For each of the six comparison gates, in a context that
    supplies the two ranges, the gate is a permutation shader on one qubit,
    and its body answers [mod(out_id + 1, 2)], the target bit toggled, when
    the integer comparison of the two range values holds and [out_id]
    otherwise; every pair of values that fits two disjoint ranges is read
    from some index. *)
Theorem C5_comparison_toggle (g : Gate) (literal : Z -> Z -> bool)
    (ctx : CircuitEvalContext) (A B : Range) (o f : Z) :
  (g, literal) ∈ comparison_gates ->
  customContextFromGates ctx !! "Input Range A" = Some A ->
  customContextFromGates ctx !! "Input Range B" = Some B ->
  0 <= offset A <= 30 -> 0 <= length A <= 30 ->
  0 <= offset B <= 30 -> 0 <= length B <= 30 ->
  o = 0 \/ o = 1 ->
  (exists cs,
     evaluate g ctx = Some (Normal cs) /\
     shape (shader cs) = Permutation /\
     ket_span (ket cs) = 1 /\
     let a := slice (offset A) (length A) f in
     let b := slice (offset B) (length B) f in
     apply_body cs (ket_at (ket cs) (inject_Z f))
     = apply_body cs (ketZ (slice (row ctx) 1 f) f 2) /\
     apply_body cs (ketZ o f 2)
     = inject_Z (if literal a b then (o + 1) mod 2 else o) /\
     (o + 1) mod 2 = Z.lxor o 1) /\
  (forall a b,
     offset A + length A <= offset B \/ offset B + length B <= offset A ->
     0 <= a < 2 ^ length A -> 0 <= b < 2 ^ length B ->
     exists f', 0 <= f' /\ slice (offset A) (length A) f' = a /\
                slice (offset B) (length B) f' = b).
Proof.
  intros Hg HA HB HoA HLA HoB HLB Ho.
  split.
  - unfold comparison_gates in Hg.
    repeat (apply elem_of_cons in Hg as [[= -> ->] | Hg]);
      try (now apply not_elem_of_nil in Hg);
      (eexists; split; [apply evaluate_comparison; [exact HA | exact HB]|];
       split; [reflexivity|]; split; [reflexivity|];
       cbv zeta; unfold apply_body; cbn [shader args ket withArgs ketArgs];
       rewrite ket_at_Z; cbn [ket_row ket_span];
       split; [reflexivity|];
       rewrite comparison_body_Z, !shl_1_pow2 by lia;
       fold (slice (offset A) (length A) f);
       fold (slice (offset B) (length B) f);
       split; [|destruct Ho as [-> | ->]; reflexivity];
       f_equal; rewrite toggle_bit by exact Ho).
    + now rewrite lt_Z.
    + now rewrite gt_Z, Z.gtb_ltb.
    + now rewrite le_Z.
    + now rewrite ge_Z, Z.geb_leb.
    + now rewrite eq_Z.
    + now rewrite ne_Z.
  - intros a b Hdisj Ha Hb.
    apply disjoint_ranges_independent; lia.
Qed.

(** The less-than gate at a position where A holds 1 and B holds 2, and at
    one where A holds 3 and B holds 1. *)
Lemma C5_example_less_than :
  exists cs,
    evaluate ArithmeticGates.ALessThanB ctx_AB = Some (Normal cs) /\
    apply_body cs (ketZ 0 34 2) = inject_Z 1 /\
    apply_body cs (ketZ 0 22 2) = inject_Z 0.
Proof.
  destruct (C5_comparison_toggle ArithmeticGates.ALessThanB Z.ltb ctx_AB
              {| offset := 1; length := 3 |} {| offset := 4; length := 2 |} 0 34)
    as [(cs & Hcs & _ & _ & _ & Htoggle & _) _];
    [ apply elem_of_cons; left; reflexivity
    | reflexivity | reflexivity
    | cbn; lia | cbn; lia | cbn; lia | cbn; lia | left; reflexivity | ].
  exists cs. split; [exact Hcs|]. split; [exact Htoggle|].
  injection Hcs as <-. reflexivity.
Defined.

(** Ranges of lengths 2 and 3 (A at bit 0, B at bit 2): for all pairs of
    values and both values of the target bit, each gate toggles the bit
    exactly when its comparison holds. *)
Example comparison_lengths_2_3 :
  let ctx := ctx_of 5 [("Input Range A", {| offset := 0; length := 2 |});
                       ("Input Range B", {| offset := 2; length := 3 |})] in
  Forall (fun gl : Gate * (Z -> Z -> bool) =>
    Forall (fun a => Forall (fun b => Forall (fun o =>
      toggle_of (fst gl) ctx o (a + 4 * b)
      = Some (inject_Z (if snd gl a b then 1 - o else o)))
      [0; 1]) [0; 1; 2; 3; 4; 5; 6; 7]) [0; 1; 2; 3])
    comparison_gates.
Proof. intros ctx. repeat constructor. Qed.

(** ** Host integers in range *)

Lemma band_mask x n :
  - 2 ^ 31 <= x < 2 ^ 31 -> 0 <= n <= 30 ->
  JS.band x (JS.shl 1 n - 1) = x mod 2 ^ n.
Proof.
  intros Hx Hn. unfold JS.band.
  rewrite shl_1_pow2 by lia.
  pose proof (pow2_le_30 n Hn).
  rewrite !ToInt32_small by lia.
  rewrite <- Z.land_ones by lia.
  now rewrite Z.ones_equiv, <- Z.sub_1_r.
Qed.

Lemma sar_div x n :
  - 2 ^ 31 <= x < 2 ^ 31 -> 0 <= n < 32 -> JS.sar x n = x / 2 ^ n.
Proof.
  intros Hx Hn. unfold JS.sar.
  rewrite ToInt32_small, Z.mod_small by lia.
  now apply Z.shiftr_div_pow2.
Qed.

Lemma shl_mul x n :
  0 <= n < 32 -> - 2 ^ 31 <= x * 2 ^ n < 2 ^ 31 -> - 2 ^ 31 <= x < 2 ^ 31 ->
  JS.shl x n = Z.shiftl x n.
Proof.
  intros Hn Hr Hx. unfold JS.shl.
  rewrite (ToInt32_small x), Z.mod_small by lia.
  rewrite Z.shiftl_mul_pow2 by lia.
  now apply ToInt32_small.
Qed.

Lemma Math_floor_half n : JS.Math_floor (inject_Z n / 2) = n / 2.
Proof.
  unfold JS.Math_floor. change 2%Q with (inject_Z 2).
  symmetry. apply Zdiv_Qdiv.
Qed.

Lemma Math_ceil_half n : JS.Math_ceil (inject_Z n / 2) = (n + 1) / 2.
Proof.
  unfold JS.Math_ceil, Qceiling. cbn.
  Z.div_mod_to_equations. lia.
Qed.

(** ** Permutation shaders on integer indices *)

Lemma source_index_Z cs F v :
  run cs (inject_Z F) = inject_Z v ->
  source_index cs (inject_Z F)
  = inject_Z (splice (ket_row (ket cs)) (ket_span (ket cs)) F v).
Proof.
  intros Hrun. unfold source_index. rewrite Hrun, ket_at_Z.
  cbn [out_id ketZ].
  now rewrite minus_Z, <- inject_Z_mult, <- inject_Z_plus.
Qed.

Lemma splice_embed r n lo e hi p q v :
  0 <= r -> 0 <= lo < 2 ^ r -> 0 <= p -> 0 <= q -> p + q <= n ->
  splice (r + p) q (embed r n lo e hi) v = embed r n lo (splice p q e v) hi.
Proof.
  intros Hr Hlo Hp Hq Hn. unfold splice.
  rewrite slice_embed by lia.
  unfold embed. rewrite (Z.pow_add_r 2 r p) by lia. ring.
Qed.

Lemma splice_whole n e v : 0 <= e < 2 ^ n -> splice 0 n e v = v.
Proof.
  intros He. unfold splice. rewrite slice_small by lia.
  rewrite Z.pow_0_r. lia.
Qed.

Lemma run_increment ctx n amount F :
  run (incrementShaderFunc ctx n amount) (inject_Z F)
  = inject_Z ((slice (row ctx) n F - amount + 2 ^ n) mod 2 ^ n).
Proof.
  unfold run, incrementShaderFunc. cbn [shader args ket withArgs ketArgs].
  rewrite ket_at_Z. cbn [ket_row ket_span].
  now rewrite increment_body_Z.
Qed.

Lemma run_addition ctx n srcOffset srcSpan factor F :
  0 <= srcOffset <= 30 -> 0 <= srcSpan <= 30 ->
  run (additionShaderFunc ctx n srcOffset srcSpan factor) (inject_Z F)
  = inject_Z ((slice (row ctx) n F + 2 ^ n
               - (slice srcOffset srcSpan F * factor) mod 2 ^ n) mod 2 ^ n).
Proof.
  intros Ho Hs.
  unfold run, additionShaderFunc. cbn [shader args ket withArgs ketArgs].
  rewrite ket_at_Z. cbn [ket_row ket_span].
  now rewrite addition_body_Z, !shl_1_pow2 by lia.
Qed.

(** ** C2: the addition and subtraction gates *)

Lemma halves n :
  2 <= n <= 16 ->
  1 <= n / 2 <= 8 /\ 1 <= (n + 1) / 2 <= 8 /\ n / 2 + (n + 1) / 2 = n.
Proof. intros Hn. Z.div_mod_to_equations. lia. Qed.

Lemma pow2_le_16 n : 0 <= n <= 16 -> 0 < 2 ^ n <= 65536.
Proof.
  intros Hn. split; [apply pow2_pos; lia|].
  change 65536 with (2 ^ 16). apply pow2_le_mono; lia.
Qed.

Lemma halves_transition (n e c : Z) :
  2 <= n <= 16 -> 0 <= e < 2 ^ n -> c = 1 \/ c = -1 ->
  let sa := n / 2 in
  let sb := (n + 1) / 2 in
  let a := JS.band e (JS.shl 1 sa - 1) in
  let b := JS.sar e sa in
  let b := b + c * a in
  let b := JS.band b (JS.shl 1 sb - 1) in
  a + JS.shl b sa
  = e mod 2 ^ sa + Z.shiftl ((e / 2 ^ sa + c * (e mod 2 ^ sa)) mod 2 ^ sb) sa.
Proof.
  intros Hn He Hc sa sb.
  destruct (halves n Hn) as (Hsa & Hsb & Hsum). fold sa sb in Hsa, Hsb, Hsum.
  pose proof (pow2_le_16 n ltac:(lia)) as Hpn.
  pose proof (pow2_le_16 sa ltac:(lia)) as Hpa.
  pose proof (pow2_le_16 sb ltac:(lia)) as Hpb.
  assert (Hsplit : 2 ^ n = 2 ^ sb * 2 ^ sa)
    by (rewrite <- Z.pow_add_r by lia; f_equal; lia).
  cbv zeta.
  rewrite (band_mask e sa) by lia.
  rewrite (sar_div e sa) by lia.
  pose proof (Z.mod_pos_bound e (2 ^ sa) ltac:(lia)) as Ha.
  assert (Hb : 0 <= e / 2 ^ sa < 2 ^ sb).
  { split; [apply Z.div_pos; lia|]. apply Z.div_lt_upper_bound; lia. }
  rewrite band_mask by (destruct Hc as [-> | ->]; lia).
  pose proof (Z.mod_pos_bound (e / 2 ^ sa + c * (e mod 2 ^ sa)) (2 ^ sb)
                ltac:(lia)) as Hb'.
  rewrite shl_mul by nia.
  reflexivity.
Qed.

Lemma addition_transition_Z n e :
  2 <= n <= 16 -> 0 <= e < 2 ^ n ->
  addition_transition n e
  = e mod 2 ^ (n / 2)
    + Z.shiftl ((e / 2 ^ (n / 2) + e mod 2 ^ (n / 2)) mod 2 ^ ((n + 1) / 2)) (n / 2).
Proof.
  intros Hn He. unfold addition_transition.
  rewrite Math_floor_half, Math_ceil_half.
  pose proof (halves_transition n e 1 Hn He ltac:(lia)) as H.
  cbv zeta in H. rewrite !Z.mul_1_l in H. exact H.
Qed.

Lemma subtraction_transition_Z n e :
  2 <= n <= 16 -> 0 <= e < 2 ^ n ->
  subtraction_transition n e
  = e mod 2 ^ (n / 2)
    + Z.shiftl ((e / 2 ^ (n / 2) - e mod 2 ^ (n / 2)) mod 2 ^ ((n + 1) / 2)) (n / 2).
Proof.
  intros Hn He. unfold subtraction_transition.
  rewrite Math_floor_half, Math_ceil_half.
  pose proof (halves_transition n e (-1) Hn He ltac:(lia)) as H.
  cbv zeta in H.
  replace (e / 2 ^ (n / 2) + -1 * (e mod 2 ^ (n / 2)))
    with (e / 2 ^ (n / 2) - e mod 2 ^ (n / 2)) in H by lia.
  replace (JS.sar e (n / 2) + -1 * JS.band e (JS.shl 1 (n / 2) - 1))
    with (JS.sar e (n / 2) - JS.band e (JS.shl 1 (n / 2) - 1)) in H by lia.
  exact H.
Qed.

(** A pair of halves [(a, b)] packed as [a + (b << sa)]. *)
Lemma packed_halves sa sb a b :
  0 <= sa -> 0 <= sb -> 0 <= a < 2 ^ sa -> 0 <= b < 2 ^ sb ->
  let e := a + Z.shiftl b sa in
  0 <= e < 2 ^ (sa + sb) /\ e mod 2 ^ sa = a /\ e / 2 ^ sa = b /\
  slice sa sb e = b /\ slice 0 sa e = a.
Proof.
  intros Hsa Hsb Ha Hb e. subst e.
  rewrite Z.shiftl_mul_pow2 by lia.
  pose proof (pow2_pos sa Hsa). pose proof (pow2_pos sb Hsb).
  assert (Hmod : (a + b * 2 ^ sa) mod 2 ^ sa = a)
    by (rewrite Z.mod_add by lia; now apply Z.mod_small).
  assert (Hdiv : (a + b * 2 ^ sa) / 2 ^ sa = b)
    by (rewrite Z.div_add by lia; rewrite Z.div_small by lia; lia).
  repeat split.
  - nia.
  - rewrite Z.pow_add_r by lia. nia.
  - exact Hmod.
  - exact Hdiv.
  - unfold slice. rewrite Hdiv. now apply Z.mod_small.
  - unfold slice. now rewrite Z.pow_0_r, Z.div_1_r.
Qed.

Lemma evaluate_addition n ctx cs :
  evaluate (ofSize ArithmeticGates.AdditionFamily n) ctx = Some (Normal cs) ->
  cs = additionShaderFunc (withRow ctx (row ctx + n / 2)) ((n + 1) / 2)
         (row ctx) (n / 2) 1.
Proof.
  intros H.
  change (Some (Normal (additionShaderFunc
            (withRow ctx (row ctx + JS.Math_floor (inject_Z n / 2)))
            (JS.Math_ceil (inject_Z n / 2)) (row ctx)
            (JS.Math_floor (inject_Z n / 2)) 1)) = Some (Normal cs)) in H.
  rewrite Math_floor_half, Math_ceil_half in H. congruence.
Qed.

Lemma evaluate_subtraction n ctx cs :
  evaluate (ofSize ArithmeticGates.SubtractionFamily n) ctx = Some (Normal cs) ->
  cs = additionShaderFunc (withRow ctx (row ctx + n / 2)) ((n + 1) / 2)
         (row ctx) (n / 2) (-1).
Proof.
  intros H.
  change (Some (Normal (additionShaderFunc
            (withRow ctx (row ctx + JS.Math_floor (inject_Z n / 2)))
            (JS.Math_ceil (inject_Z n / 2)) (row ctx)
            (JS.Math_floor (inject_Z n / 2)) (-1))) = Some (Normal cs)) in H.
  rewrite Math_floor_half, Math_ceil_half in H. congruence.
Qed.

(** The shader of the addition gate (factor 1) or of the subtraction gate
    (factor -1), at the output position whose halves are [(a, b')], reads
    the position whose halves are [(a, (b' - factor * a) mod 2^sb)]. *)
Lemma halves_source_index ctx n c a b' lo hi :
  2 <= n <= 16 -> 0 <= row ctx <= 30 -> 0 <= lo < 2 ^ row ctx ->
  0 <= a < 2 ^ (n / 2) -> 0 <= b' < 2 ^ ((n + 1) / 2) ->
  source_index
    (additionShaderFunc (withRow ctx (row ctx + n / 2)) ((n + 1) / 2)
       (row ctx) (n / 2) c)
    (inject_Z (embed (row ctx) n lo (a + Z.shiftl b' (n / 2)) hi))
  = inject_Z (embed (row ctx) n lo
      (a + Z.shiftl ((b' - a * c) mod 2 ^ ((n + 1) / 2)) (n / 2)) hi).
Proof.
  intros Hn Hr Hlo Ha Hb.
  destruct (halves n Hn) as (Hsa & Hsb & Hsum).
  set (sa := n / 2) in *. set (sb := (n + 1) / 2) in *.
  destruct (packed_halves sa sb a b' ltac:(lia) ltac:(lia) Ha Hb)
    as (He & _ & _ & Hhigh & Hlow).
  pose proof (pow2_pos sb ltac:(lia)) as HS.
  erewrite source_index_Z; cycle 1.
  { rewrite run_addition by lia. cbn [row withRow].
    rewrite (slice_embed (row ctx) n lo (a + Z.shiftl b' sa) hi sa sb) by lia.
    replace (slice (row ctx) sa (embed (row ctx) n lo (a + Z.shiftl b' sa) hi))
      with (slice 0 sa (a + Z.shiftl b' sa)).
    2:{ rewrite <- (slice_embed (row ctx) n lo _ hi 0 sa) by lia.
        now rewrite Z.add_0_r. }
    rewrite Hhigh, Hlow, mod_sub_mod by lia. reflexivity. }
  cbn [ket ket_row ket_span additionShaderFunc withArgs ketArgs row withRow].
  rewrite splice_embed by lia.
  f_equal. f_equal.
  unfold splice. rewrite Hhigh, !Z.shiftl_mul_pow2 by lia. ring.
Qed.

(** C2. For every span from 2 to 16, with [sa = floor(span/2)] and
    [sb = ceil(span/2)], the addition gate maps the basis state [e] of
    [[0, 2^span)], whose addend is [a = e mod 2^sa] and whose accumulator is
    [b = floor(e / 2^sa)], to [a + (((b + a) mod 2^sb) << sa)], and the
    subtraction gate maps it to [a + (((b - a) mod 2^sb) << sa)]; the addend
    half is left as it was.  This is the map the matrix makers generate, and
    the shader of each gate reads, at the position of the image, the
    position of [e]. *)
Theorem C2_addition_subtraction (n : Z) (ctx : CircuitEvalContext)
    (add sub : WglConfiguredShader) (e lo hi : Z) :
  2 <= n <= 16 -> 0 <= e < 2 ^ n ->
  0 <= row ctx <= 30 -> 0 <= lo < 2 ^ row ctx -> 0 <= hi ->
  evaluate (ofSize ArithmeticGates.AdditionFamily n) ctx = Some (Normal add) ->
  evaluate (ofSize ArithmeticGates.SubtractionFamily n) ctx = Some (Normal sub) ->
  let sa := n / 2 in
  let sb := (n + 1) / 2 in
  let a := e mod 2 ^ sa in
  let b := e / 2 ^ sa in
  let e_add := a + Z.shiftl ((b + a) mod 2 ^ sb) sa in
  let e_sub := a + Z.shiftl ((b - a) mod 2 ^ sb) sa in
  (JS.Math_floor (inject_Z n / 2) = sa /\ JS.Math_ceil (inject_Z n / 2) = sb) /\
  (addition_transition n e = e_add /\ subtraction_transition n e = e_sub) /\
  (cell (ADDITION_MATRIX_MAKER n) e_add e = 1 /\
   cell (SUBTRACTION_MATRIX_MAKER n) e_sub e = 1) /\
  (0 <= e_add < 2 ^ n /\ 0 <= e_sub < 2 ^ n) /\
  (e_add mod 2 ^ sa = a /\ e_sub mod 2 ^ sa = a) /\
  (e_add / 2 ^ sa = (b + a) mod 2 ^ sb /\ e_sub / 2 ^ sa = (b - a) mod 2 ^ sb) /\
  source_index add (inject_Z (embed (row ctx) n lo e_add hi))
    = inject_Z (embed (row ctx) n lo e hi) /\
  source_index sub (inject_Z (embed (row ctx) n lo e_sub hi))
    = inject_Z (embed (row ctx) n lo e hi).
Proof.
  intros Hn He Hr Hlo _ Hadd Hsub sa sb a b e_add e_sub.
  apply evaluate_addition in Hadd as ->.
  apply evaluate_subtraction in Hsub as ->.
  destruct (halves n Hn) as (Hsa & Hsb & Hsum). fold sa sb in Hsa, Hsb, Hsum.
  pose proof (pow2_pos sa ltac:(lia)) as Hpa.
  pose proof (pow2_pos sb ltac:(lia)) as Hpb.
  assert (Hsplit : 2 ^ n = 2 ^ sb * 2 ^ sa)
    by (rewrite <- Z.pow_add_r by lia; f_equal; lia).
  assert (Ha : 0 <= a < 2 ^ sa) by (apply Z.mod_pos_bound; lia).
  assert (Hb : 0 <= b < 2 ^ sb).
  { split; [apply Z.div_pos; lia|]. apply Z.div_lt_upper_bound; lia. }
  assert (Hadd' : 0 <= (b + a) mod 2 ^ sb < 2 ^ sb) by (apply Z.mod_pos_bound; lia).
  assert (Hsub' : 0 <= (b - a) mod 2 ^ sb < 2 ^ sb) by (apply Z.mod_pos_bound; lia).
  destruct (packed_halves sa sb a _ ltac:(lia) ltac:(lia) Ha Hadd')
    as (Ra & Ma & Da & _ & _).
  destruct (packed_halves sa sb a _ ltac:(lia) ltac:(lia) Ha Hsub')
    as (Rs & Ms & Ds & _ & _).
  fold e_add in Ra, Ma, Da. fold e_sub in Rs, Ms, Ds.
  replace (sa + sb) with n in Ra, Rs by lia.
  assert (Te : addition_transition n e = e_add) by now apply addition_transition_Z.
  assert (Ts : subtraction_transition n e = e_sub)
    by now apply subtraction_transition_Z.
  assert (Ee : e = a + Z.shiftl b sa).
  { rewrite Z.shiftl_mul_pow2 by lia. subst a b.
    rewrite (Z.div_mod e (2 ^ sa)) at 1 by lia. ring. }
  split; [split; [apply Math_floor_half | apply Math_ceil_half]|].
  split; [now split|].
  split; [split; cbn; [rewrite Te | rewrite Ts]; now rewrite Z.eqb_refl|].
  split; [now split|]. split; [now split|]. split; [now split|].
  split.
  - subst e_add. unfold sa, sb in *. rewrite halves_source_index by lia.
    rewrite Z.mul_1_r, Zminus_mod_idemp_l.
    replace (b + a - a) with b by lia.
    rewrite (Z.mod_small b) by lia. now rewrite <- Ee.
  - subst e_sub. unfold sa, sb in *. rewrite halves_source_index by lia.
    rewrite Zminus_mod_idemp_l.
    replace (b - a - a * -1) with b by lia.
    rewrite (Z.mod_small b) by lia. now rewrite <- Ee.
Qed.

(** Span 4, the state with addend 3 and accumulator 1. *)
Lemma C2_example_span_4 :
  addition_transition 4 7 = 3 /\ subtraction_transition 4 7 = 11.
Proof.
  destruct (C2_addition_subtraction 4 ctx_AB
              (additionShaderFunc (withRow ctx_AB 2) 2 0 2 1)
              (additionShaderFunc (withRow ctx_AB 2) 2 0 2 (-1)) 7 0 0)
    as (_ & (Hadd & Hsub) & _);
    [lia | cbn; lia | cbn; lia | cbn; lia | lia | reflexivity | reflexivity |].
  split; [exact Hadd | exact Hsub].
Defined.

(** Span 4: the pair [(a, b)] goes to [(a, (a + b) mod 4)] under addition and
    to [(a, (b - a) mod 4)] under subtraction, for all sixteen pairs. *)
Example span_4_all_pairs :
  Forall (fun a => Forall (fun b =>
    addition_transition 4 (a + Z.shiftl b 2) = a + Z.shiftl ((a + b) mod 4) 2 /\
    subtraction_transition 4 (a + Z.shiftl b 2) = a + Z.shiftl ((b - a) mod 4) 2)
    [0; 1; 2; 3]) [0; 1; 2; 3].
Proof. repeat constructor. Qed.

(** ** C4: matrices and shaders *)

Lemma inject_Z_eq a b : inject_Z a = inject_Z b -> a = b.
Proof. unfold inject_Z. congruence. Qed.

Lemma embed_inj r n lo x y hi :
  0 <= r -> embed r n lo x hi = embed r n lo y hi -> x = y.
Proof.
  intros Hr Heq. unfold embed in Heq.
  pose proof (pow2_pos r Hr). nia.
Qed.

Lemma acts_like_transition f n fwd pre size :
  size = 2 ^ n ->
  (forall ctx lo hi r,
     0 <= row ctx <= 30 -> 0 <= lo < 2 ^ row ctx -> 0 <= r < 2 ^ n ->
     exists cs, f ctx = Normal cs /\
       source_index cs (inject_Z (embed (row ctx) n lo r hi))
       = inject_Z (embed (row ctx) n lo (pre r) hi)) ->
  (forall c, 0 <= c < 2 ^ n -> pre (fwd c) = c) ->
  (forall r, 0 <= r < 2 ^ n -> fwd (pre r) = r) ->
  acts_like_matrix f n (generateTransition size fwd).
Proof.
  intros -> Hsrc Hpre Hfwd. split; [reflexivity|].
  intros ctx lo hi r c Hrow Hlo _ Hr Hc.
  destruct (Hsrc ctx lo hi r Hrow Hlo Hr) as (cs & Hf & Hs).
  exists cs. split; [exact Hf|]. cbv zeta. rewrite Hs. cbn [cell generateTransition].
  destruct (Z.eqb_spec (fwd c) r) as [<- | Hne].
  - left. split; [reflexivity|]. now rewrite Hpre.
  - right. split; [reflexivity|]. intros Heq.
    apply inject_Z_eq, embed_inj in Heq; [|lia].
    apply Hne. rewrite <- Heq. now apply Hfwd.
Qed.

Lemma increment_source ctx n amount lo hi r :
  0 <= n -> 0 <= row ctx -> 0 <= lo < 2 ^ row ctx -> 0 <= r < 2 ^ n ->
  source_index (incrementShaderFunc ctx n amount)
    (inject_Z (embed (row ctx) n lo r hi))
  = inject_Z (embed (row ctx) n lo ((r - amount + 2 ^ n) mod 2 ^ n) hi).
Proof.
  intros Hn Hrow Hlo Hr.
  erewrite source_index_Z; cycle 1.
  { rewrite run_increment, slice_embed_whole by lia. reflexivity. }
  cbn [ket ket_row ket_span incrementShaderFunc withArgs ketArgs].
  replace (row ctx) with (row ctx + 0) at 1 by lia.
  rewrite splice_embed, splice_whole by lia.
  reflexivity.
Qed.

Lemma offset_forward_back S c a :
  0 < S -> 0 <= c < S -> ((c + a) mod S - a + S) mod S = c.
Proof.
  intros HS Hc.
  replace ((c + a) mod S - a + S) with ((c + a) mod S + (S - a)) by lia.
  rewrite Z.add_mod_idemp_l by lia.
  replace (c + a + (S - a)) with (c + 1 * S) by lia.
  rewrite Z.mod_add by lia. now apply Z.mod_small.
Qed.

Lemma offset_back_forward S r a :
  0 < S -> 0 <= r < S -> ((r - a + S) mod S + a) mod S = r.
Proof.
  intros HS Hr.
  rewrite Z.add_mod_idemp_l by lia.
  replace (r - a + S + a) with (r + 1 * S) by lia.
  rewrite Z.mod_add by lia. now apply Z.mod_small.
Qed.

Lemma offset_matrix_agrees n a :
  1 <= n <= 16 -> a = 1 \/ a = -1 ->
  acts_like_matrix (fun ctx => Normal (incrementShaderFunc ctx n a)) n
    (makeOffsetMatrix a n).
Proof.
  intros Hn Ha. unfold makeOffsetMatrix.
  pose proof (pow2_le_16 n ltac:(lia)) as HS.
  apply acts_like_transition
    with (pre := fun r => (r - a + 2 ^ n) mod 2 ^ n).
  - apply shl_1_pow2. lia.
  - intros ctx lo hi r Hrow Hlo Hr. eexists. split; [reflexivity|].
    apply increment_source; lia.
  - intros c Hc. rewrite band_mask by lia.
    apply offset_forward_back; lia.
  - intros r Hr.
    pose proof (Z.mod_pos_bound (r - a + 2 ^ n) (2 ^ n) ltac:(lia)).
    rewrite band_mask by lia.
    apply offset_back_forward; lia.
Qed.

Lemma unpack_halves n e :
  2 <= n <= 16 -> 0 <= e < 2 ^ n ->
  0 <= e mod 2 ^ (n / 2) < 2 ^ (n / 2) /\
  0 <= e / 2 ^ (n / 2) < 2 ^ ((n + 1) / 2) /\
  e = e mod 2 ^ (n / 2) + Z.shiftl (e / 2 ^ (n / 2)) (n / 2).
Proof.
  intros Hn He.
  destruct (halves n Hn) as (Hsa & Hsb & Hsum).
  pose proof (pow2_pos (n / 2) ltac:(lia)) as Hpa.
  pose proof (pow2_pos ((n + 1) / 2) ltac:(lia)) as Hpb.
  assert (Hsplit : 2 ^ n = 2 ^ ((n + 1) / 2) * 2 ^ (n / 2))
    by (rewrite <- Z.pow_add_r by lia; f_equal; lia).
  split; [apply Z.mod_pos_bound; lia|].
  split.
  - split; [apply Z.div_pos; lia|]. apply Z.div_lt_upper_bound; lia.
  - rewrite Z.shiftl_mul_pow2 by lia.
    rewrite (Z.div_mod e (2 ^ (n / 2))) at 1 by lia. ring.
Qed.

Lemma halves_map_packed n c a b :
  2 <= n <= 16 -> 0 <= a < 2 ^ (n / 2) -> 0 <= b < 2 ^ ((n + 1) / 2) ->
  halves_map n c (a + Z.shiftl b (n / 2))
  = a + Z.shiftl ((b + c * a) mod 2 ^ ((n + 1) / 2)) (n / 2).
Proof.
  intros Hn Ha Hb.
  destruct (halves n Hn) as (Hsa & Hsb & Hsum).
  destruct (packed_halves (n / 2) ((n + 1) / 2) a b ltac:(lia) ltac:(lia) Ha Hb)
    as (_ & Hmod & Hdiv & _).
  unfold halves_map. cbv zeta. now rewrite Hmod, Hdiv.
Qed.

Lemma halves_map_range n c e :
  2 <= n <= 16 -> 0 <= e < 2 ^ n -> 0 <= halves_map n c e < 2 ^ n.
Proof.
  intros Hn He.
  destruct (halves n Hn) as (Hsa & Hsb & Hsum).
  destruct (unpack_halves n e Hn He) as (Ha & Hb & _).
  pose proof (pow2_pos ((n + 1) / 2) ltac:(lia)) as Hpb.
  destruct (packed_halves (n / 2) ((n + 1) / 2) (e mod 2 ^ (n / 2))
              ((e / 2 ^ (n / 2) + c * (e mod 2 ^ (n / 2))) mod 2 ^ ((n + 1) / 2))
              ltac:(lia) ltac:(lia) Ha ltac:(apply Z.mod_pos_bound; lia))
    as (Hrange & _).
  replace (n / 2 + (n + 1) / 2) with n in Hrange by lia.
  exact Hrange.
Qed.

Lemma halves_map_inverse n c e :
  2 <= n <= 16 -> 0 <= e < 2 ^ n -> halves_map n (- c) (halves_map n c e) = e.
Proof.
  intros Hn He.
  destruct (halves n Hn) as (Hsa & Hsb & Hsum).
  destruct (unpack_halves n e Hn He) as (Ha & Hb & Hpack).
  pose proof (pow2_pos ((n + 1) / 2) ltac:(lia)) as Hpb.
  rewrite Hpack at 1.
  rewrite halves_map_packed by lia.
  rewrite halves_map_packed by (try apply Z.mod_pos_bound; lia).
  rewrite Z.add_mod_idemp_l by lia.
  replace (e / 2 ^ (n / 2) + c * (e mod 2 ^ (n / 2)) + - c * (e mod 2 ^ (n / 2)))
    with (e / 2 ^ (n / 2)) by lia.
  rewrite (Z.mod_small (e / 2 ^ (n / 2))) by lia.
  now rewrite <- Hpack.
Qed.

Lemma halves_source ctx n c lo hi r :
  2 <= n <= 16 -> 0 <= row ctx <= 30 -> 0 <= lo < 2 ^ row ctx ->
  0 <= r < 2 ^ n ->
  source_index
    (additionShaderFunc (withRow ctx (row ctx + n / 2)) ((n + 1) / 2)
       (row ctx) (n / 2) c)
    (inject_Z (embed (row ctx) n lo r hi))
  = inject_Z (embed (row ctx) n lo (halves_map n (- c) r) hi).
Proof.
  intros Hn Hrow Hlo Hr.
  destruct (unpack_halves n r Hn Hr) as (Ha & Hb & Hpack).
  rewrite Hpack at 1.
  rewrite halves_source_index by lia.
  unfold halves_map. cbv zeta.
  replace (r / 2 ^ (n / 2) - r mod 2 ^ (n / 2) * c)
    with (r / 2 ^ (n / 2) + - c * (r mod 2 ^ (n / 2))) by lia.
  reflexivity.
Qed.

Lemma halves_matrix_agrees n c :
  2 <= n <= 16 -> c = 1 \/ c = -1 ->
  acts_like_matrix
    (fun ctx => Normal (additionShaderFunc
       (withRow ctx (row ctx + JS.Math_floor (inject_Z n / 2)))
       (JS.Math_ceil (inject_Z n / 2)) (row ctx)
       (JS.Math_floor (inject_Z n / 2)) c))
    n (generateTransition (JS.shl 1 n) (halves_map n c)).
Proof.
  intros Hn Hc. rewrite Math_floor_half, Math_ceil_half.
  apply acts_like_transition with (pre := halves_map n (- c)).
  - apply shl_1_pow2. lia.
  - intros ctx lo hi r Hrow Hlo Hr. eexists. split; [reflexivity|].
    now apply halves_source.
  - intros e He. now apply halves_map_inverse.
  - intros r Hr.
    replace c with (- - c) at 1 by lia.
    now apply halves_map_inverse.
Qed.

Lemma acts_like_matrix_ext f n size fwd fwd' :
  size = 2 ^ n ->
  (forall c, 0 <= c < 2 ^ n -> fwd c = fwd' c) ->
  acts_like_matrix f n (generateTransition size fwd') ->
  acts_like_matrix f n (generateTransition size fwd).
Proof.
  intros Hsize Hext [_ H]. split; [exact Hsize|].
  intros ctx lo hi r c Hrow Hlo Hhi Hr Hc.
  destruct (H ctx lo hi r c Hrow Hlo Hhi Hr Hc) as (cs & Hf & Hcell).
  exists cs. split; [exact Hf|].
  cbn [cell generateTransition] in *. now rewrite Hext.
Qed.

Lemma addition_transition_halves n e :
  2 <= n <= 16 -> 0 <= e < 2 ^ n -> addition_transition n e = halves_map n 1 e.
Proof.
  intros Hn He. rewrite addition_transition_Z by lia.
  unfold halves_map. cbv zeta. now rewrite Z.mul_1_l.
Qed.

Lemma subtraction_transition_halves n e :
  2 <= n <= 16 -> 0 <= e < 2 ^ n ->
  subtraction_transition n e = halves_map n (-1) e.
Proof.
  intros Hn He. rewrite subtraction_transition_Z by lia.
  unfold halves_map. cbv zeta.
  replace (e / 2 ^ (n / 2) + -1 * (e mod 2 ^ (n / 2)))
    with (e / 2 ^ (n / 2) - e mod 2 ^ (n / 2)) by lia.
  reflexivity.
Qed.

(** C4. Below its threshold (span 4 for increment and decrement, span 5 for
    addition and subtraction) each gate exposes a known matrix, and the
    shader of the gate acts like that matrix on every basis state: the
    matrix sends [c] to [r] exactly when the shader reads [c] for the
    output [r].  At and above the threshold the gate has no known matrix. *)
Theorem C4_matrix_agrees_with_shader (n : Z) :
  1 <= n <= 16 ->
  (n < 4 ->
   exposes_agreeing_matrix (ofSize ArithmeticGates.IncrementFamily n) n /\
   exposes_agreeing_matrix (ofSize ArithmeticGates.DecrementFamily n) n) /\
  (2 <= n < 5 ->
   exposes_agreeing_matrix (ofSize ArithmeticGates.AdditionFamily n) n /\
   exposes_agreeing_matrix (ofSize ArithmeticGates.SubtractionFamily n) n) /\
  (4 <= n ->
   knownMatrix (ofSize ArithmeticGates.IncrementFamily n) = None /\
   knownMatrix (ofSize ArithmeticGates.DecrementFamily n) = None) /\
  (5 <= n ->
   knownMatrix (ofSize ArithmeticGates.AdditionFamily n) = None /\
   knownMatrix (ofSize ArithmeticGates.SubtractionFamily n) = None).
Proof.
  intros Hn. split; [|split; [|split]].
  - intros Hlt. split; eexists; eexists;
      (split; [cbn; destruct (Z.leb_spec 4 n); [lia | reflexivity]|]);
      (split; [reflexivity|]);
      apply offset_matrix_agrees; lia.
  - intros Hlt.
    pose proof (shl_1_pow2 n ltac:(lia)) as Hsize.
    split; eexists; eexists;
      (split; [cbn; destruct (Z.leb_spec 5 n); [lia | reflexivity]|]);
      (split; [reflexivity|]).
    + apply acts_like_matrix_ext with (fwd' := halves_map n 1);
        [exact Hsize | | apply halves_matrix_agrees; lia].
      intros c Hc. apply addition_transition_halves; lia.
    + apply acts_like_matrix_ext with (fwd' := halves_map n (-1));
        [exact Hsize | | apply halves_matrix_agrees; lia].
      intros c Hc. apply subtraction_transition_halves; lia.
  - intros Hge. cbn. destruct (Z.leb_spec 4 n); [now split | lia].
  - intros Hge. cbn. destruct (Z.leb_spec 5 n); [now split | lia].
Qed.

(** Span 3 is below both thresholds, span 4 is at the first. *)
Lemma C4_example_span_3 :
  exposes_agreeing_matrix (ofSize ArithmeticGates.IncrementFamily 3) 3 /\
  exposes_agreeing_matrix (ofSize ArithmeticGates.SubtractionFamily 3) 3 /\
  knownMatrix (ofSize ArithmeticGates.IncrementFamily 4) = None.
Proof.
  destruct (C4_matrix_agrees_with_shader 3 ltac:(lia)) as (Hinc & Hadd & _).
  destruct (C4_matrix_agrees_with_shader 4 ltac:(lia)) as (_ & _ & Hnone & _).
  split; [apply Hinc; lia|].
  split; [apply Hadd; lia|].
  apply Hnone. lia.
Defined.

(** The test of [ketShaderPermute] in the sources: the body
    [mod(out_id + 1.0, 4.0)] on two qubits acts like the transition matrix
    of [i => (i - 1) & 3]. *)
Example ketShaderPermute_test :
  acts_like_matrix
    (fun ctx => Normal (withArgs
       (ketShaderPermute "" (fun _ k => GLSL.mod_ (out_id k + 1) 4))
       (ketArgs ctx 2) []))
    2 (generateTransition 4 (fun i => JS.band (i - 1) 3)).
Proof.
  apply acts_like_transition with (pre := fun r => (r + 1) mod 4).
  - reflexivity.
  - intros ctx lo hi r Hrow Hlo Hr. eexists. split; [reflexivity|].
    erewrite source_index_Z; cycle 1.
    { unfold run. cbn [shader args ket withArgs ketArgs ketShaderPermute body].
      rewrite ket_at_Z. cbn [ket_row ket_span ketArgs out_id ketZ].
      fold (slice (row ctx) 2 (embed (row ctx) 2 lo r hi)).
      rewrite slice_embed_whole by lia.
      change 1%Q with (inject_Z 1). change 4%Q with (inject_Z 4).
      rewrite <- inject_Z_plus, mod_Z. reflexivity. }
    cbn [ket ket_row ket_span withArgs ketArgs].
    replace (row ctx) with (row ctx + 0) at 1 by lia.
    now rewrite splice_embed, splice_whole by lia.
  - intros c Hc.
    assert (c = 0 \/ c = 1 \/ c = 2 \/ c = 3) as [-> | [-> | [-> | ->]]]
      by (change (2 ^ 2) with 4 in Hc; lia); reflexivity.
  - intros r Hr.
    assert (r = 0 \/ r = 1 \/ r = 2 \/ r = 3) as [-> | [-> | [-> | ->]]]
      by (change (2 ^ 2) with 4 in Hr; lia); reflexivity.
Qed.

(** ** Whole positions *)

(** The host shift wraps at 32 bits: beyond bit 30 it no longer answers the
    power of two, which is why the ranges above stay within 30. *)
Example shl_wraps : JS.shl 1 31 = - 2 ^ 31 /\ JS.shl 1 32 = 1 /\ JS.shl 1 30 = 2 ^ 30.
Proof. repeat split. Qed.

(** The ket at the position whose slice is [e]. *)
Lemma ket_at_embed r n lo e hi :
  0 <= r -> 0 <= n -> 0 <= lo < 2 ^ r -> 0 <= e < 2 ^ n ->
  ket_at {| ket_row := r; ket_span := n |} (inject_Z (embed r n lo e hi))
  = ketZ e (embed r n lo e hi) (2 ^ n).
Proof.
  intros Hr Hn Hlo He. rewrite ket_at_Z. cbn [ket_row ket_span].
  fold (slice r n (embed r n lo e hi)).
  now rewrite slice_embed_whole.
Qed.

(** Every index is made of its slice and of the bits below and above. *)
Lemma embed_decompose r n F :
  0 <= r -> 0 <= n ->
  F = embed r n (F mod 2 ^ r) (slice r n F) (F / 2 ^ (r + n)).
Proof.
  intros Hr Hn. unfold embed, slice.
  pose proof (pow2_pos r Hr). pose proof (pow2_pos n Hn).
  rewrite Z.pow_add_r, <- Z.div_div by lia.
  pose proof (Z.div_mod F (2 ^ r) ltac:(lia)).
  pose proof (Z.div_mod (F / 2 ^ r) (2 ^ n) ltac:(lia)).
  nia.
Qed.

Lemma slice_above r n lo e hi o L :
  0 <= r -> 0 <= n -> 0 <= lo < 2 ^ r -> 0 <= e < 2 ^ n -> r + n <= o ->
  slice o L (embed r n lo e hi) = slice (o - r - n) L hi.
Proof.
  intros Hr Hn Hlo He Ho. unfold slice. f_equal.
  pose proof (pow2_pos r Hr). pose proof (pow2_pos n Hn).
  pose proof (pow2_pos (r + n) ltac:(lia)) as Hrn.
  replace o with ((r + n) + (o - r - n)) at 1 by lia.
  rewrite Z.pow_add_r, <- Z.div_div by (try apply pow2_pos; lia).
  f_equal. unfold embed.
  rewrite Z.div_add by lia.
  rewrite Z.div_small; [lia|].
  rewrite Z.pow_add_r by lia. nia.
Qed.

Lemma splice_embed_whole r n lo e hi v :
  0 <= r -> 0 <= n -> 0 <= lo < 2 ^ r -> 0 <= e < 2 ^ n ->
  splice r n (embed r n lo e hi) v = embed r n lo v hi.
Proof.
  intros Hr Hn Hlo He.
  replace r with (r + 0) at 1 by lia.
  now rewrite splice_embed, splice_whole by lia.
Qed.

(** Replacing the slice of a position leaves every range that does not
    overlap it as it was. *)
Lemma slice_splice_disjoint r n F v o L :
  0 <= r -> 0 <= n -> 0 <= o -> 0 <= L -> 0 <= v < 2 ^ n ->
  o + L <= r \/ r + n <= o ->
  slice o L (splice r n F v) = slice o L F.
Proof.
  intros Hr Hn Ho HL Hv [Hbelow | Habove].
  - unfold splice. now apply slice_add_high.
  - rewrite (embed_decompose r n F Hr Hn).
    pose proof (Z.mod_pos_bound F (2 ^ r) (pow2_pos r Hr)).
    pose proof (slice_range r n F Hn).
    rewrite splice_embed_whole by lia.
    now rewrite !slice_above by lia.
Qed.

Lemma splice_same r n F : splice r n F (slice r n F) = F.
Proof. unfold splice. lia. Qed.

Lemma slice_splice r n F v :
  0 <= r -> 0 <= n -> 0 <= v < 2 ^ n -> slice r n (splice r n F v) = v.
Proof.
  intros Hr Hn Hv.
  rewrite (embed_decompose r n F Hr Hn).
  pose proof (Z.mod_pos_bound F (2 ^ r) (pow2_pos r Hr)).
  pose proof (slice_range r n F Hn).
  rewrite splice_embed_whole by lia.
  now apply slice_embed_whole.
Qed.

Lemma splice_splice r n F v w :
  0 <= r -> 0 <= n -> 0 <= v < 2 ^ n ->
  splice r n (splice r n F v) w = splice r n F w.
Proof.
  intros Hr Hn Hv. unfold splice at 1.
  rewrite slice_splice by lia. unfold splice. ring.
Qed.

Lemma run_flip ctx n srcOffset srcSpan F :
  0 <= srcOffset <= 30 -> 0 <= srcSpan <= 30 ->
  run (flipShaderFunc ctx n srcOffset srcSpan) (inject_Z F)
  = inject_Z (let d := slice srcOffset srcSpan F in
              let o := slice (row ctx) n F in
              if d <=? o then o else (d - 1 - o) mod 2 ^ n).
Proof.
  intros Ho Hs.
  unfold run, flipShaderFunc. cbn [shader args ket withArgs ketArgs].
  rewrite ket_at_Z. cbn [ket_row ket_span].
  now rewrite flip_body_Z, !shl_1_pow2 by lia.
Qed.

Lemma run_flip2 ctx n srcOffset srcSpan F :
  0 <= srcOffset <= 30 -> 0 <= srcSpan <= 30 ->
  run (flipShaderFunc2 ctx n srcOffset srcSpan) (inject_Z F)
  = inject_Z (let d := slice srcOffset srcSpan F in
              let o := slice (row ctx) n F in
              if d <? o then o else (d - o) mod 2 ^ n).
Proof.
  intros Ho Hs.
  unfold run, flipShaderFunc2. cbn [shader args ket withArgs ketArgs].
  rewrite ket_at_Z. cbn [ket_row ket_span].
  now rewrite flip2_body_Z, !shl_1_pow2 by lia.
Qed.

(** Two shaders on the same slice, the second reading at the position the
    first one reads: when the value of the second at that position is the
    slice of the start, the two reads lead back to the start. *)
Lemma two_reads_back cs1 cs2 F v1 :
  ket cs2 = ket cs1 ->
  0 <= ket_row (ket cs1) -> 0 <= ket_span (ket cs1) ->
  0 <= v1 < 2 ^ ket_span (ket cs1) ->
  run cs1 (inject_Z F) = inject_Z v1 ->
  run cs2 (inject_Z (splice (ket_row (ket cs1)) (ket_span (ket cs1)) F v1))
  = inject_Z (slice (ket_row (ket cs1)) (ket_span (ket cs1)) F) ->
  source_index cs2 (source_index cs1 (inject_Z F)) = inject_Z F.
Proof.
  intros Hket Hr Hn Hv Hrun1 Hrun2.
  rewrite (source_index_Z cs1 F v1 Hrun1).
  rewrite (source_index_Z cs2 _ _ Hrun2), Hket.
  now rewrite splice_splice, splice_same by lia.
Qed.

(** On whole positions: reading through the decrement shader and then
    through the increment shader leads back to the start, and so do -A
    then +A and each flip twice, when the range A does not overlap the
    qubits of the gate. *)
Theorem gates_undo_on_positions (n : Z) (ctx : CircuitEvalContext) (o L F : Z) :
  1 <= n <= 16 -> 0 <= row ctx ->
  0 <= o <= 30 -> 0 <= L <= 30 ->
  o + L <= row ctx \/ row ctx + n <= o ->
  let through cs2 cs1 := source_index cs2 (source_index cs1 (inject_Z F)) in
  through (incrementShaderFunc ctx n 1) (incrementShaderFunc ctx n (-1))
    = inject_Z F /\
  through (incrementShaderFunc ctx n (-1)) (incrementShaderFunc ctx n 1)
    = inject_Z F /\
  through (additionShaderFunc ctx n o L 1) (additionShaderFunc ctx n o L (-1))
    = inject_Z F /\
  through (additionShaderFunc ctx n o L (-1)) (additionShaderFunc ctx n o L 1)
    = inject_Z F /\
  through (flipShaderFunc ctx n o L) (flipShaderFunc ctx n o L) = inject_Z F /\
  through (flipShaderFunc2 ctx n o L) (flipShaderFunc2 ctx n o L) = inject_Z F.
Proof.
  intros Hn Hrow Ho HL Hdisj through. subst through. cbv beta.
  pose proof (pow2_pos n ltac:(lia)) as HS.
  pose proof (slice_range (row ctx) n F ltac:(lia)) as Hs.
  assert (Hmod : forall x, 0 <= x mod 2 ^ n < 2 ^ n)
    by (intros x; apply Z.mod_pos_bound; lia).
  repeat split.
  - eapply two_reads_back; [reflexivity | cbn; lia | cbn; lia | |
                            apply run_increment |]; cbn [ket ket_row ket_span
      incrementShaderFunc withArgs ketArgs]; [apply Hmod|].
    rewrite run_increment, slice_splice by (try apply Hmod; lia).
    f_equal. now apply (offset_then_back (2 ^ n) _ (-1)).
  - eapply two_reads_back; [reflexivity | cbn; lia | cbn; lia | |
                            apply run_increment |]; cbn [ket ket_row ket_span
      incrementShaderFunc withArgs ketArgs]; [apply Hmod|].
    rewrite run_increment, slice_splice by (try apply Hmod; lia).
    f_equal. now apply (offset_then_back (2 ^ n) _ 1).
  - eapply two_reads_back; [reflexivity | cbn; lia | cbn; lia | |
                            apply run_addition; lia |]; cbn [ket ket_row ket_span
      additionShaderFunc withArgs ketArgs]; [apply Hmod|].
    rewrite run_addition, slice_splice, slice_splice_disjoint
      by (try apply Hmod; lia).
    f_equal. now apply (add_then_back (2 ^ n) _ _ (-1)).
  - eapply two_reads_back; [reflexivity | cbn; lia | cbn; lia | |
                            apply run_addition; lia |]; cbn [ket ket_row ket_span
      additionShaderFunc withArgs ketArgs]; [apply Hmod|].
    rewrite run_addition, slice_splice, slice_splice_disjoint
      by (try apply Hmod; lia).
    f_equal. now apply (add_then_back (2 ^ n) _ _ 1).
  - assert (Hv : 0 <= (let d := slice o L F in
                       let x := slice (row ctx) n F in
                       if d <=? x then x else (d - 1 - x) mod 2 ^ n) < 2 ^ n)
      by (cbv zeta; destruct (_ <=? _); [lia | apply Hmod]).
    eapply two_reads_back; [reflexivity | cbn; lia | cbn; lia | |
                            apply run_flip; lia |]; cbn [ket ket_row ket_span
      flipShaderFunc withArgs ketArgs]; [exact Hv|].
    rewrite run_flip, slice_splice, slice_splice_disjoint by (try exact Hv; lia).
    f_equal. now apply (flip_below_twice (2 ^ n)).
  - assert (Hv : 0 <= (let d := slice o L F in
                       let x := slice (row ctx) n F in
                       if d <? x then x else (d - x) mod 2 ^ n) < 2 ^ n)
      by (cbv zeta; destruct (_ <? _); [lia | apply Hmod]).
    eapply two_reads_back; [reflexivity | cbn; lia | cbn; lia | |
                            apply run_flip2; lia |]; cbn [ket ket_row ket_span
      flipShaderFunc2 withArgs ketArgs]; [exact Hv|].
    rewrite run_flip2, slice_splice, slice_splice_disjoint by (try exact Hv; lia).
    f_equal. now apply (flip_at_or_below_twice (2 ^ n)).
Qed.

(** * Further properties of the code *)

(** ** The offset matrices *)

Lemma makeOffsetMatrix_cell a n r c :
  0 <= n <= 30 -> - 2 ^ 30 <= a <= 2 ^ 30 -> 0 <= c < 2 ^ n ->
  cell (makeOffsetMatrix a n) r c = if (c + a) mod 2 ^ n =? r then 1 else 0.
Proof.
  intros Hn Ha Hc. pose proof (pow2_le_30 n Hn).
  cbn [cell makeOffsetMatrix generateTransition].
  now rewrite band_mask by lia.
Qed.

(** The product of two offset matrices is the offset matrix of the sum: the
    one of column [c] of [makeOffsetMatrix (a + b)] is in row [r] exactly
    when some row [m] holds the one of column [c] of [makeOffsetMatrix a]
    and row [r] holds the one of column [m] of [makeOffsetMatrix b]; and the
    matrix of offset 0 is the identity.  So the decrement matrix undoes the
    increment matrix. *)
Theorem makeOffsetMatrix_product (n a b r c : Z) :
  0 <= n <= 30 -> - 2 ^ 29 <= a <= 2 ^ 29 -> - 2 ^ 29 <= b <= 2 ^ 29 ->
  0 <= r < 2 ^ n -> 0 <= c < 2 ^ n ->
  (cell (makeOffsetMatrix (a + b) n) r c = 1 <->
   exists m, 0 <= m < 2 ^ n /\
     cell (makeOffsetMatrix a n) m c = 1 /\ cell (makeOffsetMatrix b n) r m = 1) /\
  (cell (makeOffsetMatrix 0 n) r c = 1 <-> r = c).
Proof.
  intros Hn Ha Hb Hr Hc.
  pose proof (pow2_le_30 n Hn) as HS.
  assert (Hin : 0 <= (c + a) mod 2 ^ n < 2 ^ n) by (apply Z.mod_pos_bound; lia).
  split.
  - rewrite makeOffsetMatrix_cell by lia. split.
    + intros H. exists ((c + a) mod 2 ^ n). split; [exact Hin|].
      rewrite !makeOffsetMatrix_cell by lia.
      rewrite Z.eqb_refl. split; [reflexivity|].
      rewrite Z.add_mod_idemp_l by lia.
      replace (c + a + b) with (c + (a + b)) by lia.
      exact H.
    + intros (m & Hm & Hcm & Hmr).
      rewrite makeOffsetMatrix_cell in Hcm, Hmr by lia.
      destruct (Z.eqb_spec ((c + a) mod 2 ^ n) m) as [<- |]; [|discriminate].
      rewrite Z.add_mod_idemp_l in Hmr by lia.
      replace (c + (a + b)) with (c + a + b) by lia.
      exact Hmr.
  - rewrite makeOffsetMatrix_cell by lia.
    rewrite Z.add_0_r, Z.mod_small by lia.
    destruct (Z.eqb_spec c r); split; intros; (congruence || lia).
Qed.

(** Span 2: the one of column 3 of the increment matrix is in row 0, and the
    one of column 0 of the decrement matrix is in row 3. *)
Lemma makeOffsetMatrix_product_example :
  cell (makeOffsetMatrix (1 + -1) 2) 3 3 = 1 <->
  exists m, 0 <= m < 2 ^ 2 /\
    cell (INCREMENT_MATRIX_MAKER 2) m 3 = 1 /\
    cell (DECREMENT_MATRIX_MAKER 2) 3 m = 1.
Proof.
  apply (makeOffsetMatrix_product 2 1 (-1) 3 3); cbn; lia.
Defined.

(** ** Addition and subtraction undo each other *)

(** For every span from 2 to 16 and every state of the span, the map of the
    subtraction matrix undoes the map of the addition matrix and conversely,
    and both maps stay within the states of the span. *)
Theorem addition_subtraction_inverse (n e : Z) :
  2 <= n <= 16 -> 0 <= e < 2 ^ n ->
  subtraction_transition n (addition_transition n e) = e /\
  addition_transition n (subtraction_transition n e) = e /\
  0 <= addition_transition n e < 2 ^ n /\
  0 <= subtraction_transition n e < 2 ^ n.
Proof.
  intros Hn He.
  pose proof (halves_map_range n 1 e Hn He) as Hadd.
  pose proof (halves_map_range n (-1) e Hn He) as Hsub.
  rewrite (addition_transition_halves n e Hn He).
  rewrite (subtraction_transition_halves n e Hn He).
  rewrite subtraction_transition_halves, addition_transition_halves by lia.
  repeat split; try lia.
  - now apply (halves_map_inverse n 1).
  - now apply (halves_map_inverse n (-1)).
Qed.

(** Span 5 (two low bits, three high bits), state 23. *)
Lemma addition_subtraction_inverse_example :
  subtraction_transition 5 (addition_transition 5 23) = 23 /\
  addition_transition 5 23 = 3.
Proof.
  destruct (addition_subtraction_inverse 5 23) as (H & _); [lia | cbn; lia |].
  split; [exact H | reflexivity].
Defined.

(** ** The matrices are permutation matrices *)

Lemma transition_is_permutation n size fwd pre :
  size = 2 ^ n ->
  (forall c, 0 <= c < 2 ^ n -> 0 <= fwd c < 2 ^ n) ->
  (forall r, 0 <= r < 2 ^ n -> 0 <= pre r < 2 ^ n) ->
  (forall c, 0 <= c < 2 ^ n -> pre (fwd c) = c) ->
  (forall r, 0 <= r < 2 ^ n -> fwd (pre r) = r) ->
  is_permutation_matrix n (generateTransition size fwd).
Proof.
  intros -> Hfwd Hpre Hback Hforth.
  split; [reflexivity|]. cbn [cell generateTransition].
  split; [intros r c; destruct (_ =? _); auto|].
  split.
  - intros c Hc. exists (fwd c). split; [now apply Hfwd|].
    rewrite Z.eqb_refl. split; [reflexivity|].
    intros r'. destruct (Z.eqb_spec (fwd c) r'); congruence.
  - intros r Hr. exists (pre r). split; [now apply Hpre|].
    rewrite Hforth, Z.eqb_refl by exact Hr. split; [reflexivity|].
    intros c' Hc'. destruct (Z.eqb_spec (fwd c') r) as [<- |]; [|discriminate].
    intros _. symmetry. now apply Hback.
Qed.

Lemma offset_matrix_is_permutation n a :
  0 <= n <= 30 -> - 2 ^ 29 <= a <= 2 ^ 29 ->
  is_permutation_matrix n (makeOffsetMatrix a n).
Proof.
  intros Hn Ha. pose proof (pow2_le_30 n Hn) as HS.
  apply transition_is_permutation with (pre := fun r => (r - a) mod 2 ^ n).
  - now apply shl_1_pow2.
  - intros c Hc. rewrite band_mask by lia. apply Z.mod_pos_bound. lia.
  - intros r Hr. apply Z.mod_pos_bound. lia.
  - intros c Hc. rewrite band_mask by lia.
    rewrite Zminus_mod_idemp_l.
    replace (c + a - a) with c by lia. now apply Z.mod_small.
  - intros r Hr.
    pose proof (Z.mod_pos_bound (r - a) (2 ^ n) ltac:(lia)).
    rewrite band_mask by lia.
    rewrite Z.add_mod_idemp_l by lia.
    replace (r - a + a) with r by lia. now apply Z.mod_small.
Qed.

Lemma halves_matrix_is_permutation n c fwd :
  2 <= n <= 16 ->
  (forall e, 0 <= e < 2 ^ n -> fwd e = halves_map n c e) ->
  is_permutation_matrix n (generateTransition (JS.shl 1 n) fwd).
Proof.
  intros Hn Hfwd.
  apply transition_is_permutation with (pre := halves_map n (- c)).
  - apply shl_1_pow2. lia.
  - intros e He. rewrite Hfwd by exact He. now apply halves_map_range.
  - intros r Hr. now apply halves_map_range.
  - intros e He. rewrite Hfwd by exact He. now apply halves_map_inverse.
  - intros r Hr.
    rewrite Hfwd by now apply halves_map_range.
    replace c with (- - c) at 1 by lia. now apply halves_map_inverse.
Qed.

(** For every span of the families, the matrices that the four makers build
    (also above the spans for which the gates expose them) are permutation
    matrices of size [2^span]: one 1 in every column and in every row. *)
Theorem matrix_makers_are_permutations (n : Z) :
  1 <= n <= 16 ->
  is_permutation_matrix n (INCREMENT_MATRIX_MAKER n) /\
  is_permutation_matrix n (DECREMENT_MATRIX_MAKER n) /\
  (2 <= n ->
   is_permutation_matrix n (ADDITION_MATRIX_MAKER n) /\
   is_permutation_matrix n (SUBTRACTION_MATRIX_MAKER n)).
Proof.
  intros Hn.
  split; [apply offset_matrix_is_permutation; cbn; lia|].
  split; [apply offset_matrix_is_permutation; cbn; lia|].
  intros Hn2. split.
  - apply halves_matrix_is_permutation with (c := 1); [lia|].
    intros e He. apply addition_transition_halves; lia.
  - apply halves_matrix_is_permutation with (c := -1); [lia|].
    intros e He. apply subtraction_transition_halves; lia.
Qed.

(** Span 7, above both thresholds. *)
Lemma matrix_makers_are_permutations_example :
  is_permutation_matrix 7 (INCREMENT_MATRIX_MAKER 7) /\
  is_permutation_matrix 7 (SUBTRACTION_MATRIX_MAKER 7).
Proof.
  destruct (matrix_makers_are_permutations 7 ltac:(lia)) as (Hinc & _ & Hadd).
  split; [exact Hinc | apply Hadd; lia].
Defined.

(** ** What the bodies answer stays a state of the span *)

Lemma family_member (f : GateFamily) g :
  g ∈ family_all f -> exists n, minSize f <= n <= maxSize f /\ g = ofSize f n.
Proof.
  unfold family_all. intros Hg.
  apply list_elem_of_fmap in Hg as (n & -> & Hn).
  apply elem_of_seqZ in Hn. exists n. split; [lia | reflexivity].
Qed.

Lemma run_addition_raw ctx n srcOffset srcSpan factor F :
  run (additionShaderFunc ctx n srcOffset srcSpan factor) (inject_Z F)
  = inject_Z ((slice (row ctx) n F + 2 ^ n
               - ((F / JS.shl 1 srcOffset) mod JS.shl 1 srcSpan * factor)
                 mod 2 ^ n) mod 2 ^ n).
Proof.
  unfold run, additionShaderFunc. cbn [shader args ket withArgs ketArgs].
  rewrite ket_at_Z. cbn [ket_row ket_span].
  now rewrite addition_body_Z.
Qed.

Lemma run_flip_raw ctx n srcOffset srcSpan F :
  run (flipShaderFunc ctx n srcOffset srcSpan) (inject_Z F)
  = inject_Z (let d := (F / JS.shl 1 srcOffset) mod JS.shl 1 srcSpan in
              let o := slice (row ctx) n F in
              if d <=? o then o else (d - 1 - o) mod 2 ^ n).
Proof.
  unfold run, flipShaderFunc. cbn [shader args ket withArgs ketArgs].
  rewrite ket_at_Z. cbn [ket_row ket_span].
  now rewrite flip_body_Z.
Qed.

Lemma run_flip2_raw ctx n srcOffset srcSpan F :
  run (flipShaderFunc2 ctx n srcOffset srcSpan) (inject_Z F)
  = inject_Z (let d := (F / JS.shl 1 srcOffset) mod JS.shl 1 srcSpan in
              let o := slice (row ctx) n F in
              if d <? o then o else (d - o) mod 2 ^ n).
Proof.
  unfold run, flipShaderFunc2. cbn [shader args ket withArgs ketArgs].
  rewrite ket_at_Z. cbn [ket_row ket_span].
  now rewrite flip2_body_Z.
Qed.

Lemma run_comparison_raw cmp ctx A B F :
  run (withArgs (comparison_shader cmp) (ketArgs ctx 1)
         [WglArg_float "lhsOffset" (inject_Z (JS.shl 1 (offset A)));
          WglArg_float "rhsOffset" (inject_Z (JS.shl 1 (offset B)));
          WglArg_float "lhsSpan" (inject_Z (JS.shl 1 (length A)));
          WglArg_float "rhsSpan" (inject_Z (JS.shl 1 (length B)))])
      (inject_Z F)
  = inject_Z ((slice (row ctx) 1 F
               + (if cmp (inject_Z ((F / JS.shl 1 (offset A)) mod JS.shl 1 (length A)))
                         (inject_Z ((F / JS.shl 1 (offset B)) mod JS.shl 1 (length B)))
                  then 1 else 0)) mod 2).
Proof.
  unfold run. cbn [shader args ket withArgs ketArgs].
  rewrite ket_at_Z. cbn [ket_row ket_span].
  now rewrite comparison_body_Z.
Qed.

Lemma evaluate_comparison_inv name blurb cmp ctx cs :
  evaluate (ArithmeticGates.comparison_gate name blurb cmp) ctx = Some (Normal cs) ->
  exists A B,
    customContextFromGates ctx !! "Input Range A" = Some A /\
    customContextFromGates ctx !! "Input Range B" = Some B /\
    cs = withArgs (comparison_shader cmp) (ketArgs ctx 1)
      [WglArg_float "lhsOffset" (inject_Z (JS.shl 1 (offset A)));
       WglArg_float "rhsOffset" (inject_Z (JS.shl 1 (offset B)));
       WglArg_float "lhsSpan" (inject_Z (JS.shl 1 (length A)));
       WglArg_float "rhsSpan" (inject_Z (JS.shl 1 (length B)))].
Proof.
  unfold evaluate. cbn. unfold customComparisonShader, get_range.
  destruct (_ !! "Input Range A") as [A|]; cbn; [|congruence].
  destruct (_ !! "Input Range B") as [B|]; cbn; [|congruence].
  intros [= <-]. now exists A, B.
Qed.

(** For every gate of the file, every context in which its shader is
    configured and every position, the shader is a permutation shader on a
    span within 16 qubits and its body answers an integer in
    [[0, 2^span)]: no body points outside the states of its span, whatever
    the auxiliary ranges hold. *)
Theorem bodies_stay_in_span (g : Gate) (ctx : CircuitEvalContext)
    (cs : WglConfiguredShader) (F : Z) :
  g ∈ ArithmeticGates.all ->
  evaluate g ctx = Some (Normal cs) ->
  shape (shader cs) = Permutation /\
  1 <= ket_span (ket cs) <= 16 /\
  exists v, run cs (inject_Z F) = inject_Z v /\ 0 <= v < 2 ^ ket_span (ket cs).
Proof.
  intros Hg Hcs.
  assert (Hmod : forall n x, 0 <= n -> 0 <= x mod 2 ^ n < 2 ^ n)
    by (intros n x Hn; apply Z.mod_pos_bound; now apply pow2_pos).
  unfold ArithmeticGates.all in Hg.
  repeat (apply elem_of_app in Hg as [Hg | Hg]);
    try (apply family_member in Hg as (n & Hn & ->); cbn in Hn).
  - apply evaluate_increment in Hcs as ->.
    split; [reflexivity|]. split; [cbn; lia|].
    eexists. split; [apply run_increment|]. apply Hmod. cbn. lia.
  - apply evaluate_decrement in Hcs as ->.
    split; [reflexivity|]. split; [cbn; lia|].
    eexists. split; [apply run_increment|]. apply Hmod. cbn. lia.
  - apply evaluate_addition in Hcs as ->.
    destruct (halves n ltac:(lia)) as (_ & Hsb & _).
    split; [reflexivity|]. split; [cbn; lia|].
    eexists. split; [apply run_addition_raw|]. apply Hmod. cbn. lia.
  - apply evaluate_subtraction in Hcs as ->.
    destruct (halves n ltac:(lia)) as (_ & Hsb & _).
    split; [reflexivity|]. split; [cbn; lia|].
    eexists. split; [apply run_addition_raw|]. apply Hmod. cbn. lia.
  - apply evaluate_plus_A in Hcs as (A & _ & ->).
    split; [reflexivity|]. split; [cbn; lia|].
    eexists. split; [apply run_addition_raw|]. apply Hmod. cbn. lia.
  - apply evaluate_minus_A in Hcs as (A & _ & ->).
    split; [reflexivity|]. split; [cbn; lia|].
    eexists. split; [apply run_addition_raw|]. apply Hmod. cbn. lia.
  - apply evaluate_flip_below in Hcs as (A & _ & ->).
    split; [reflexivity|]. split; [cbn; lia|].
    eexists. split; [apply run_flip_raw|]. cbv zeta.
    cbn [ket ket_span flipShaderFunc withArgs ketArgs].
    pose proof (slice_range (row ctx) n F ltac:(lia)).
    destruct (_ <=? _); [lia | apply Hmod; lia].
  - apply evaluate_flip_below2 in Hcs as (A & _ & ->).
    split; [reflexivity|]. split; [cbn; lia|].
    eexists. split; [apply run_flip2_raw|]. cbv zeta.
    cbn [ket ket_span flipShaderFunc2 withArgs ketArgs].
    pose proof (slice_range (row ctx) n F ltac:(lia)).
    destruct (_ <? _); [lia | apply Hmod; lia].
  - repeat (apply elem_of_cons in Hg as [-> | Hg]);
      try (now apply not_elem_of_nil in Hg);
      apply evaluate_comparison_inv in Hcs as (A & B & _ & _ & ->);
      (split; [reflexivity|]); (split; [cbn; lia|]);
      (eexists; split; [apply run_comparison_raw|]);
      apply (Hmod 1); lia.
Qed.

(** The flip gate of span 2 at row 3, with the range A at bits 0 to 2. *)
Lemma bodies_stay_in_span_example :
  let ctx := ctx_of 3 [("Input Range A", {| offset := 0; length := 3 |})] in
  exists v, run (flipShaderFunc ctx 2 0 3) (inject_Z 13) = inject_Z v /\
            0 <= v < 2 ^ 2.
Proof.
  intros ctx.
  destruct (bodies_stay_in_span (ofSize ArithmeticGates.FlipBelow 2) ctx
              (flipShaderFunc ctx 2 0 3) 13) as (_ & _ & Hv).
  - unfold ArithmeticGates.all.
    do 6 (apply elem_of_app; right). apply elem_of_app; left.
    apply list_elem_of_fmap. exists 2. split; [reflexivity|].
    apply elem_of_seqZ. cbn. lia.
  - reflexivity.
  - exact Hv.
Defined.

(** Row 4, span 3, the range A at bits 0 to 2, position 100. *)
Lemma gates_undo_on_positions_example :
  let ctx := ctx_of 4 [("Input Range A", {| offset := 0; length := 3 |})] in
  source_index (additionShaderFunc ctx 3 0 3 1)
    (source_index (additionShaderFunc ctx 3 0 3 (-1)) (inject_Z 100))
  = inject_Z 100 /\
  source_index (flipShaderFunc ctx 3 0 3)
    (source_index (flipShaderFunc ctx 3 0 3) (inject_Z 100))
  = inject_Z 100.
Proof.
  intros ctx.
  destruct (gates_undo_on_positions 3 ctx 0 3 100)
    as (_ & _ & Hadd & _ & Hflip & _);
    [lia | cbn; lia | lia | lia | left; cbn; lia |].
  split; [exact Hadd | exact Hflip].
Defined.

(** ** What the increment and addition shaders do to a state *)

(** The increment shader with any integer amount moves the amplitude of the
    state [e] of its span to the state [(e + amount) mod 2^span]: the output
    position whose slice is [(e + amount) mod 2^span] reads the position
    whose slice is [e], all other bits alike.  The increment gate uses
    amount 1 and the decrement gate amount -1. *)
Theorem increment_moves_state (ctx : CircuitEvalContext)
    (n amount lo e hi : Z) :
  0 <= n -> 0 <= row ctx -> 0 <= lo < 2 ^ row ctx -> 0 <= e < 2 ^ n ->
  source_index (incrementShaderFunc ctx n amount)
    (inject_Z (embed (row ctx) n lo ((e + amount) mod 2 ^ n) hi))
  = inject_Z (embed (row ctx) n lo e hi).
Proof.
  intros Hn Hrow Hlo He.
  pose proof (pow2_pos n Hn) as HS.
  rewrite increment_source
    by (try apply Z.mod_pos_bound; lia).
  now rewrite offset_forward_back by lia.
Qed.

(** Span 3 at row 2: state 7 goes to state 0 under the increment. *)
Lemma increment_moves_state_example :
  source_index (incrementShaderFunc (ctx_of 2 []) 3 1) (inject_Z (embed 2 3 1 0 5))
  = inject_Z (embed 2 3 1 7 5).
Proof.
  apply (increment_moves_state (ctx_of 2 []) 3 1 1 7 5); cbn; lia.
Defined.

(** The addition shader with any integer factor, on a range that does not
    overlap its rows, moves the amplitude of the state [e] of its span to
    the state [(e + d * factor) mod 2^span], where [d] is the value of the
    range: the +A gate (factor 1) adds the range and the -A gate (factor -1)
    subtracts it.  Exactly, the output position that differs from [F] only
    in holding the moved state reads the position [F]. *)
Theorem addition_moves_state (ctx : CircuitEvalContext) (n o L factor F : Z) :
  0 <= n -> 0 <= row ctx ->
  0 <= o <= 30 -> 0 <= L <= 30 ->
  o + L <= row ctx \/ row ctx + n <= o ->
  let d := slice o L F in
  let e := slice (row ctx) n F in
  source_index (additionShaderFunc ctx n o L factor)
    (inject_Z (splice (row ctx) n F ((e + d * factor) mod 2 ^ n)))
  = inject_Z F.
Proof.
  intros Hn Hrow Ho HL Hdisj d e.
  pose proof (pow2_pos n Hn) as HS.
  assert (Hv : 0 <= (e + d * factor) mod 2 ^ n < 2 ^ n)
    by (apply Z.mod_pos_bound; lia).
  erewrite source_index_Z; cycle 1.
  { rewrite run_addition, slice_splice, slice_splice_disjoint by lia.
    fold d. rewrite mod_sub_mod, Zminus_mod_idemp_l by lia.
    replace (e + d * factor - d * factor) with e by lia.
    reflexivity. }
  cbn [ket ket_row ket_span additionShaderFunc withArgs ketArgs].
  rewrite splice_splice by lia.
  pose proof (slice_range (row ctx) n F Hn) as He. fold e in He.
  rewrite (Z.mod_small e) by lia.
  subst e. now rewrite splice_same.
Qed.

(** Row 4, span 3, the range A at bits 0 to 2: at position 100 the range
    holds 4 and the span holds 6, so the +A gate moves the state 6 to the
    state 2. *)
Lemma addition_moves_state_example :
  let ctx := ctx_of 4 [("Input Range A", {| offset := 0; length := 3 |})] in
  slice 0 3 100 = 4 /\ slice 4 3 100 = 6 /\
  source_index (additionShaderFunc ctx 3 0 3 1)
    (inject_Z (splice 4 3 100 2)) = inject_Z 100.
Proof.
  intros ctx. split; [reflexivity|]. split; [reflexivity|].
  apply (addition_moves_state ctx 3 0 3 1 100); cbn; lia.
Defined.

(** ** Shaders in sequence *)

(** Reading through two increment shaders of amounts [b] and then [a] is
    reading through the one of amount [a + b], and reading through two
    addition shaders of factors [c2] and then [c1], on a range that does not
    overlap their rows, is reading through the one of factor [c1 + c2]. *)
Theorem shaders_in_sequence (ctx : CircuitEvalContext)
    (n a b o L c1 c2 F : Z) :
  0 <= n -> 0 <= row ctx ->
  0 <= o <= 30 -> 0 <= L <= 30 ->
  o + L <= row ctx \/ row ctx + n <= o ->
  source_index (incrementShaderFunc ctx n a)
    (source_index (incrementShaderFunc ctx n b) (inject_Z F))
  = source_index (incrementShaderFunc ctx n (a + b)) (inject_Z F) /\
  source_index (additionShaderFunc ctx n o L c1)
    (source_index (additionShaderFunc ctx n o L c2) (inject_Z F))
  = source_index (additionShaderFunc ctx n o L (c1 + c2)) (inject_Z F).
Proof.
  intros Hn Hrow Ho HL Hdisj.
  pose proof (pow2_pos n Hn) as HS.
  assert (Hmod : forall x, 0 <= x mod 2 ^ n < 2 ^ n)
    by (intros x; apply Z.mod_pos_bound; lia).
  split.
  - rewrite (source_index_Z _ F _ (run_increment ctx n b F)).
    rewrite (source_index_Z _ F _ (run_increment ctx n (a + b) F)).
    cbn [ket ket_row ket_span incrementShaderFunc withArgs ketArgs].
    erewrite source_index_Z; cycle 1.
    { rewrite run_increment, slice_splice by (try apply Hmod; lia).
      reflexivity. }
    cbn [ket ket_row ket_span incrementShaderFunc withArgs ketArgs].
    rewrite splice_splice by (try apply Hmod; lia).
    do 2 f_equal.
    replace ((slice (row ctx) n F - b + 2 ^ n) mod 2 ^ n - a + 2 ^ n)
      with ((slice (row ctx) n F - b + 2 ^ n) mod 2 ^ n + (2 ^ n - a)) by lia.
    rewrite Z.add_mod_idemp_l by lia.
    replace (slice (row ctx) n F - b + 2 ^ n + (2 ^ n - a))
      with (slice (row ctx) n F - (a + b) + 2 ^ n + 1 * 2 ^ n) by lia.
    now rewrite Z.mod_add by lia.
  - rewrite (source_index_Z _ F _ (run_addition ctx n o L c2 F Ho HL)).
    rewrite (source_index_Z _ F _ (run_addition ctx n o L (c1 + c2) F Ho HL)).
    cbn [ket ket_row ket_span additionShaderFunc withArgs ketArgs].
    erewrite source_index_Z; cycle 1.
    { rewrite run_addition, slice_splice, slice_splice_disjoint
        by (try apply Hmod; lia).
      reflexivity. }
    cbn [ket ket_row ket_span additionShaderFunc withArgs ketArgs].
    rewrite splice_splice by (try apply Hmod; lia).
    do 2 f_equal.
    rewrite !mod_sub_mod, Zminus_mod_idemp_l by lia.
    f_equal. lia.
Qed.

(** Row 4, span 3, the range A at bits 0 to 2, position 100: three steps up
    and five steps down are two steps down. *)
Lemma shaders_in_sequence_example :
  let ctx := ctx_of 4 [("Input Range A", {| offset := 0; length := 3 |})] in
  source_index (incrementShaderFunc ctx 3 3)
    (source_index (incrementShaderFunc ctx 3 (-5)) (inject_Z 100))
  = source_index (incrementShaderFunc ctx 3 (-2)) (inject_Z 100).
Proof.
  intros ctx.
  exact (proj1 (shaders_in_sequence ctx 3 3 (-5) 0 3 1 1 100
                  ltac:(lia) ltac:(cbn; lia) ltac:(lia) ltac:(lia)
                  ltac:(left; cbn; lia))).
Defined.

(** ** A range that overlaps the gate *)

(** Nothing in the file rejects a range that overlaps the rows of the gate
    that reads it.  When "Input Range A" is the very rows of a +A gate,
    every output position reads the position whose slice is 0: the states of
    the span all receive the amplitude of state 0, and the shader is no
    permutation. *)
Theorem plus_A_on_its_own_rows (ctx : CircuitEvalContext) (n lo e hi : Z) :
  1 <= n <= 16 -> 0 <= row ctx <= 30 ->
  customContextFromGates ctx !! "Input Range A"
    = Some {| offset := row ctx; length := n |} ->
  0 <= lo < 2 ^ row ctx -> 0 <= e < 2 ^ n ->
  exists cs,
    evaluate (ofSize ArithmeticGates.PlusAFamily n) ctx = Some (Normal cs) /\
    source_index cs (inject_Z (embed (row ctx) n lo e hi))
    = inject_Z (embed (row ctx) n lo 0 hi).
Proof.
  intros Hn Hrow HA Hlo He.
  pose proof (pow2_pos n ltac:(lia)) as HS.
  exists (additionShaderFunc ctx n (row ctx) n 1). split.
  - unfold evaluate. cbn. unfold get_range. now rewrite HA.
  - erewrite source_index_Z; cycle 1.
    { rewrite run_addition, slice_embed_whole by lia.
      rewrite Z.mul_1_r, mod_sub_mod, Z.sub_diag, Z.mod_0_l by lia.
      reflexivity. }
    cbn [ket ket_row ket_span additionShaderFunc withArgs ketArgs].
    now rewrite splice_embed_whole by lia.
Qed.

(** Span 2 at row 0 with the range A on the same two rows: the outputs 1
    and 3 both read position 0. *)
Lemma plus_A_on_its_own_rows_example :
  let ctx := ctx_of 0 [("Input Range A", {| offset := 0; length := 2 |})] in
  exists cs,
    evaluate (ofSize ArithmeticGates.PlusAFamily 2) ctx = Some (Normal cs) /\
    source_index cs (inject_Z 1) = inject_Z 0 /\
    source_index cs (inject_Z 3) = inject_Z 0.
Proof.
  intros ctx.
  destruct (plus_A_on_its_own_rows ctx 2 0 1 0) as (cs & Hcs & H1);
    [lia | cbn; lia | reflexivity | cbn; lia | cbn; lia |].
  exists cs. split; [exact Hcs|]. split; [exact H1|].
  injection Hcs as <-. reflexivity.
Defined.

(** ** Evaluation with the declared ranges *)

(** For every gate of the file, a context that holds every range the gate
    declares as required configures the shader: with the declared keys
    present the evaluation does not throw. *)
Theorem evaluate_with_required_keys (g : Gate) (ctx : CircuitEvalContext) :
  g ∈ ArithmeticGates.all ->
  (forall key, key ∈ requiredContextKeys g ->
     is_Some (customContextFromGates ctx !! key)) ->
  exists cs, evaluate g ctx = Some (Normal cs).
Proof.
  intros Hg Hkeys.
  unfold ArithmeticGates.all in Hg.
  repeat (apply elem_of_app in Hg as [Hg | Hg]);
    try (apply family_member in Hg as (n & _ & ->));
    try (eexists; reflexivity);
    try (destruct (Hkeys "Input Range A") as [A HA];
         [cbn; apply elem_of_cons; now left|];
         unfold evaluate; cbn; unfold get_range; rewrite HA; cbn;
         eexists; reflexivity).
  assert (HA : is_Some (customContextFromGates ctx !! "Input Range A")).
  { apply Hkeys.
    repeat (apply elem_of_cons in Hg as [-> | Hg]);
      try (now apply not_elem_of_nil in Hg); cbn; apply elem_of_cons; now left. }
  assert (HB : is_Some (customContextFromGates ctx !! "Input Range B")).
  { apply Hkeys.
    repeat (apply elem_of_cons in Hg as [-> | Hg]);
      try (now apply not_elem_of_nil in Hg);
      cbn; apply elem_of_cons; right; apply elem_of_cons; now left. }
  destruct HA as [A HA]. destruct HB as [B HB].
  repeat (apply elem_of_cons in Hg as [-> | Hg]);
    try (now apply not_elem_of_nil in Hg);
    eexists; apply (evaluate_comparison _ _ _ ctx A B HA HB).
Qed.

(** The equality gate in a context that holds both ranges. *)
Lemma evaluate_with_required_keys_example :
  exists cs, evaluate ArithmeticGates.AEqualToB ctx_AB = Some (Normal cs).
Proof.
  apply evaluate_with_required_keys.
  - unfold ArithmeticGates.all.
    do 8 (apply elem_of_app; right).
    do 2 (apply elem_of_cons; right). apply elem_of_cons. now left.
  - intros key Hkey. cbn in Hkey.
    apply elem_of_cons in Hkey as [-> | Hkey]; [now eexists|].
    apply list_elem_of_singleton in Hkey as ->. now eexists.
Defined.

(** ** The comparison gates on positions *)

Lemma customComparisonShader_program cmp ctx A B :
  customContextFromGates ctx !! "Input Range A" = Some A ->
  customContextFromGates ctx !! "Input Range B" = Some B ->
  customComparisonShader cmp ctx = Normal (comparison_program cmp ctx A B).
Proof.
  intros HA HB. unfold customComparisonShader, get_range. now rewrite HA, HB.
Qed.

Lemma run_comparison cmp ctx A B F :
  0 <= offset A <= 30 -> 0 <= length A <= 30 ->
  0 <= offset B <= 30 -> 0 <= length B <= 30 ->
  run (comparison_program cmp ctx A B) (inject_Z F)
  = inject_Z ((slice (row ctx) 1 F
               + (if cmp (inject_Z (slice (offset A) (length A) F))
                         (inject_Z (slice (offset B) (length B) F))
                  then 1 else 0)) mod 2).
Proof.
  intros HoA HLA HoB HLB. unfold comparison_program.
  now rewrite run_comparison_raw, !shl_1_pow2 by lia.
Qed.

Lemma comparisons_in_sequence cmp1 cmp2 ctx A B F :
  0 <= row ctx ->
  0 <= offset A <= 30 -> 0 <= length A <= 30 ->
  0 <= offset B <= 30 -> 0 <= length B <= 30 ->
  off_bit A (row ctx) -> off_bit B (row ctx) ->
  let a := inject_Z (slice (offset A) (length A) F) in
  let b := inject_Z (slice (offset B) (length B) F) in
  source_index (comparison_program cmp2 ctx A B)
    (source_index (comparison_program cmp1 ctx A B) (inject_Z F))
  = inject_Z (splice (row ctx) 1 F
      ((slice (row ctx) 1 F + (if cmp1 a b then 1 else 0)
        + (if cmp2 a b then 1 else 0)) mod 2)).
Proof.
  intros Hrow HoA HLA HoB HLB HoffA HoffB a b.
  assert (Hmod : forall x, 0 <= x mod 2 < 2 ^ 1)
    by (intros x; apply Z.mod_pos_bound; lia).
  rewrite (source_index_Z _ F _ (run_comparison cmp1 ctx A B F HoA HLA HoB HLB)).
  cbn [ket ket_row ket_span comparison_program withArgs ketArgs].
  erewrite source_index_Z; cycle 1.
  { rewrite run_comparison, slice_splice by (try apply Hmod; lia).
    rewrite !slice_splice_disjoint by (try apply Hmod; try assumption; lia).
    fold a b. rewrite Z.add_mod_idemp_l by lia. reflexivity. }
  cbn [ket ket_row ket_span comparison_program withArgs ketArgs].
  now rewrite splice_splice by (try apply Hmod; lia).
Qed.

(** Whatever comparison is spliced into the shader, a comparison gate is its
    own inverse on positions: in a context that holds the two ranges, both
    off the target bit, reading twice through the configured shader leads
    back to the start. *)
Theorem comparison_gate_twice (cmp : Q -> Q -> bool)
    (ctx : CircuitEvalContext) (A B : Range) (F : Z) :
  customContextFromGates ctx !! "Input Range A" = Some A ->
  customContextFromGates ctx !! "Input Range B" = Some B ->
  0 <= row ctx ->
  0 <= offset A <= 30 -> 0 <= length A <= 30 ->
  0 <= offset B <= 30 -> 0 <= length B <= 30 ->
  off_bit A (row ctx) -> off_bit B (row ctx) ->
  exists cs, customComparisonShader cmp ctx = Normal cs /\
    source_index cs (source_index cs (inject_Z F)) = inject_Z F.
Proof.
  intros HA HB Hrow HoA HLA HoB HLB HoffA HoffB.
  exists (comparison_program cmp ctx A B).
  split; [now apply customComparisonShader_program|].
  rewrite comparisons_in_sequence by assumption.
  f_equal.
  pose proof (slice_range (row ctx) 1 F ltac:(lia)) as Ht.
  change (2 ^ 1) with 2 in Ht.
  replace ((slice (row ctx) 1 F + _ + _) mod 2) with (slice (row ctx) 1 F).
  - apply splice_same.
  - destruct (cmp _ _); Z.div_mod_to_equations; lia.
Qed.

(** The less-than gate with its target at bit 0 and the ranges above it. *)
Lemma comparison_gate_twice_example :
  exists cs, customComparisonShader GLSL.lt ctx_AB = Normal cs /\
    source_index cs (source_index cs (inject_Z 35)) = inject_Z 35.
Proof.
  apply (comparison_gate_twice GLSL.lt ctx_AB
           {| offset := 1; length := 3 |} {| offset := 4; length := 2 |} 35);
    try reflexivity; try (cbn; lia); right; cbn; lia.
Defined.

(** Two gates whose comparisons are complementary, one after the other,
    toggle the target bit at every position: this holds for [<] with [>=],
    for [>] with [<=] and for [=] with [!=], in a context that holds the two
    ranges, both off the target bit. *)
Theorem complementary_comparisons_toggle
    (ctx : CircuitEvalContext) (A B : Range) (F : Z) :
  0 <= row ctx ->
  0 <= offset A <= 30 -> 0 <= length A <= 30 ->
  0 <= offset B <= 30 -> 0 <= length B <= 30 ->
  off_bit A (row ctx) -> off_bit B (row ctx) ->
  let through cmp2 cmp1 :=
    source_index (comparison_program cmp2 ctx A B)
      (source_index (comparison_program cmp1 ctx A B) (inject_Z F)) in
  let toggled :=
    inject_Z (splice (row ctx) 1 F (1 - slice (row ctx) 1 F)) in
  through GLSL.ge GLSL.lt = toggled /\
  through GLSL.le GLSL.gt = toggled /\
  through GLSL.ne GLSL.eq = toggled.
Proof.
  intros Hrow HoA HLA HoB HLB HoffA HoffB through toggled.
  subst through toggled. cbv beta.
  rewrite !comparisons_in_sequence by assumption.
  rewrite lt_Z, ge_Z, gt_Z, le_Z, eq_Z, ne_Z.
  pose proof (slice_range (row ctx) 1 F ltac:(lia)) as Ht.
  change (2 ^ 1) with 2 in Ht.
  set (a := slice (offset A) (length A) F).
  set (b := slice (offset B) (length B) F).
  set (t := slice (row ctx) 1 F) in *.
  repeat split; do 2 f_equal.
  - destruct (Z.ltb_spec a b), (Z.leb_spec b a); try lia;
      Z.div_mod_to_equations; lia.
  - destruct (Z.ltb_spec b a), (Z.leb_spec a b); try lia;
      Z.div_mod_to_equations; lia.
  - destruct (Z.eqb_spec a b); cbn [negb]; Z.div_mod_to_equations; lia.
Qed.

(** The target at bit 0, A at bits 1 to 3, B at bits 4 and 5, position 35. *)
Lemma complementary_comparisons_toggle_example :
  source_index (comparison_program GLSL.ge ctx_AB
                  {| offset := 1; length := 3 |} {| offset := 4; length := 2 |})
    (source_index (comparison_program GLSL.lt ctx_AB
                     {| offset := 1; length := 3 |} {| offset := 4; length := 2 |})
       (inject_Z 35))
  = inject_Z 34.
Proof.
  exact (proj1 (complementary_comparisons_toggle ctx_AB
                  {| offset := 1; length := 3 |} {| offset := 4; length := 2 |} 35
                  ltac:(cbn; lia) ltac:(cbn; lia) ltac:(cbn; lia)
                  ltac:(cbn; lia) ltac:(cbn; lia)
                  ltac:(right; cbn; lia) ltac:(right; cbn; lia))).
Defined.

(** ** Writing booleans and reading them back *)

Lemma float_eq_one b : GLSL.eq (GLSL.float b) 1 = b.
Proof. now destruct b. Qed.

(** A texture drawn by the boolean output part and then bound to a boolean
    input part reads back, at every index below the pixel count, the
    boolean that [outputFor] answered for that index. *)
Theorem bool_write_then_read (name : string) (w h k : Z) (outputFor : Q -> bool) :
  0 < w -> 0 < h -> 0 <= k < w * h ->
  (forall x y : Q, (x == y)%Q -> outputFor x = outputFor y) ->
  let input := boolInputPartGetter name in
  let tex := rendered BOOL_OUTPUT_PART w h outputFor in
  read_ (code input) (argsFor input tex) (inject_Z k)
  = GLSL.float (outputFor (inject_Z k)).
Proof.
  intros Hw Hh Hk Hproper input tex. subst input.
  cbn [code read_ boolInputPartGetter].
  rewrite bool_input_size, bool_input_tex. cbn [v2x v2y].
  rewrite mod_Z, floor_div_Z.
  unfold texture2D. cbn [v2x v2y].
  change (width tex) with w. change (height tex) with h.
  rewrite !Qfloor_centre by lia.
  pose proof (Z.mod_pos_bound k w Hw) as Hc.
  assert (Hr : 0 <= k / w < h).
  { split; [apply Z.div_pos; lia|]. apply Z.div_lt_upper_bound; lia. }
  unfold tex, rendered. cbn [texel].
  destruct (Z.leb_spec 0 (k mod w)); [|lia].
  destruct (Z.ltb_spec (k mod w) w); [|lia].
  destruct (Z.leb_spec 0 (k / w)); [|lia].
  destruct (Z.ltb_spec (k / w) h); [|lia].
  cbn [andb main code BOOL_OUTPUT_PART argsFor uniform_vec2 uniform_float
       String.eqb Ascii.eqb Bool.eqb v2x v2y v4x width].
  rewrite float_eq_one. f_equal. apply Hproper.
  rewrite (Z.div_mod k w) at 3 by lia.
  rewrite inject_Z_plus, inject_Z_mult. ring.
Qed.

(** A grid of four by two pixels that holds the even indices: index 6 reads
    1 and index 5 reads 0. *)
Lemma bool_write_then_read_example :
  let evens := fun x : Q => Z.even (Qfloor x) in
  let tex := rendered BOOL_OUTPUT_PART 4 2 evens in
  read_ (code (boolInputPartGetter "a")) (argsFor (boolInputPartGetter "a") tex)
        (inject_Z 6) = 1%Q /\
  read_ (code (boolInputPartGetter "a")) (argsFor (boolInputPartGetter "a") tex)
        (inject_Z 5) = 0%Q.
Proof.
  intros evens tex.
  assert (Hproper : forall x y : Q, (x == y)%Q -> evens x = evens y)
    by (intros x y Hxy; unfold evens; now rewrite Hxy).
  split.
  - exact (bool_write_then_read "a" 4 2 6 evens ltac:(lia) ltac:(lia) ltac:(lia)
             Hproper).
  - exact (bool_write_then_read "a" 4 2 5 evens ltac:(lia) ltac:(lia) ltac:(lia)
             Hproper).
Defined.

(** ** Which indices the boolean input part can read *)

Lemma read_uv_Z w h k :
  read_uv (Vec2 (inject_Z w) (inject_Z h)) (inject_Z k)
  = Vec2 ((inject_Z (k mod w) + (1 # 2)) / inject_Z w)
         ((inject_Z (k / w) + (1 # 2)) / inject_Z h).
Proof. unfold read_uv. cbn [v2x v2y]. now rewrite mod_Z, floor_div_Z. Qed.

Lemma centre_in_unit c w :
  0 < w -> 0 <= c ->
  (0 < (inject_Z c + (1 # 2)) / inject_Z w)%Q /\
  (((inject_Z c + (1 # 2)) / inject_Z w < 1)%Q <-> c < w).
Proof.
  intros Hw Hc.
  assert (Hwq : (0 < inject_Z w)%Q) by (unfold Qlt; cbn; lia).
  split.
  - apply Qlt_shift_div_l; [exact Hwq|]. unfold Qlt. cbn. lia.
  - split.
    + intros Hlt.
      pose proof (Qmult_lt_compat_r _ _ (inject_Z w) Hwq Hlt) as H.
      rewrite Qmult_1_l, Qmult_comm, Qmult_div_r in H
        by (apply inject_Z_nonzero; lia).
      unfold Qlt in H. cbn in H. lia.
    + intros Hlt. apply Qlt_shift_div_r; [exact Hwq|].
      unfold Qlt. cbn. lia.
Qed.

(** For a non-negative index [k] and a texture of positive width [w] and
    height [h], [read_<name>(k)] samples at [read_uv]; that coordinate is
    always inside the unit interval horizontally, and it is inside the unit
    interval vertically exactly when [k < w * h].  An index at or beyond the
    pixel count, among them the indices from [w * h] up to what [len_<name>]
    answers, samples outside the texture. *)
Theorem read_inside_texture (name : string) (tex : WglTexture) (k : Z) :
  0 <= k -> 0 < width tex -> 0 < height tex ->
  let part := boolInputPartGetter name in
  let uv := read_uv (Vec2 (inject_Z (width tex)) (inject_Z (height tex)))
                    (inject_Z k) in
  read_ (code part) (argsFor part tex) (inject_Z k)
    = GLSL.float (GLSL.eq (v4x (texture2D tex uv)) 1) /\
  (0 < v2x uv < 1)%Q /\
  (0 < v2y uv)%Q /\
  ((v2y uv < 1)%Q <-> k < width tex * height tex) /\
  (inject_Z (width tex * height tex)
   < len_ (code part) (argsFor part tex))%Q.
Proof.
  intros Hk Hw Hh part uv.
  split.
  { subst part uv. cbn [code read_ boolInputPartGetter].
    now rewrite bool_input_size, bool_input_tex. }
  subst uv. rewrite read_uv_Z. cbn [v2x v2y].
  pose proof (Z.mod_pos_bound k (width tex) Hw) as Hc.
  assert (Hr : 0 <= k / width tex) by (apply Z.div_pos; lia).
  destruct (centre_in_unit (k mod width tex) (width tex) Hw ltac:(lia))
    as (Hx0 & Hx1).
  destruct (centre_in_unit (k / width tex) (height tex) Hh Hr) as (Hy0 & Hy1).
  split; [split; [exact Hx0 | apply Hx1; lia]|].
  split; [exact Hy0|].
  split.
  - rewrite Hy1. split.
    + intros Hlt. pose proof (Z.div_mod k (width tex) ltac:(lia)). nia.
    + intros Hlt. apply Z.div_lt_upper_bound; lia.
  - subst part. rewrite len_input. rewrite <- Zlt_Qlt. nia.
Qed.

(** A texture of two by two pixels: index 3 samples inside, index 4 does
    not. *)
Lemma read_inside_texture_example :
  let uv k := read_uv (Vec2 2 2) (inject_Z k) in
  (v2y (uv 3%Z) < 1)%Q /\ ~ (v2y (uv 4%Z) < 1)%Q.
Proof.
  intros uv.
  destruct (read_inside_texture "a" tex_2x2 3) as (_ & _ & _ & H3 & _);
    [lia | cbn; lia | cbn; lia |].
  destruct (read_inside_texture "a" tex_2x2 4) as (_ & _ & _ & H4 & _);
    [lia | cbn; lia | cbn; lia |].
  split.
  - apply H3. cbn. lia.
  - intros Hlt. apply H4 in Hlt. cbn in Hlt. lia.
Defined.

(** ** Parts bound side by side *)

Lemma string_length_append (s t : string) :
  String.length (s +:+ t) = (String.length s + String.length t)%nat.
Proof. induction s as [|c s IH]; simpl; [reflexivity | now rewrite IH]. Qed.

Lemma append_suffix_inj (s1 s2 t : string) : s1 +:+ t = s2 +:+ t -> s1 = s2.
Proof.
  revert s2. induction s1 as [|c s1 IH]; intros [|c' s2] Heq.
  - reflexivity.
  - apply (f_equal String.length) in Heq.
    rewrite !string_length_append in Heq. simpl in Heq. lia.
  - apply (f_equal String.length) in Heq.
    rewrite !string_length_append in Heq. simpl in Heq. lia.
  - simpl in Heq. injection Heq as -> Heq. f_equal. now apply IH.
Qed.

Lemma gen_names_differ (n1 n2 suffix : string) :
  n1 <> n2 ->
  (("_gen_" +:+ n1) +:+ suffix =? ("_gen_" +:+ n2) +:+ suffix)%string = false.
Proof.
  intros Hne. apply String.eqb_neq. intros Heq.
  apply append_suffix_inj, (String.app_inj "_gen_") in Heq. congruence.
Qed.

(** Two boolean input parts of different names, neither named "output", and
    the boolean output part can share one argument list: each part reads its
    own texture and its own size, as if it were bound alone. *)
Theorem parts_side_by_side (n1 n2 : string) (t1 t2 t3 : WglTexture)
    (k : Q) (outputFor : Q -> bool) (frag : vec2) :
  n1 <> n2 -> n1 <> "output"%string -> n2 <> "output"%string ->
  let in1 := boolInputPartGetter n1 in
  let in2 := boolInputPartGetter n2 in
  let out := BOOL_OUTPUT_PART in
  let shared := argsFor in1 t1 ++ argsFor in2 t2 ++ argsFor out t3 in
  read_ (code in1) shared k = read_ (code in1) (argsFor in1 t1) k /\
  read_ (code in2) shared k = read_ (code in2) (argsFor in2 t2) k /\
  len_ (code in1) shared = len_ (code in1) (argsFor in1 t1) /\
  len_ (code in2) shared = len_ (code in2) (argsFor in2 t2) /\
  main (code out) shared outputFor frag
    = main (code out) (argsFor out t3) outputFor frag /\
  len_output (code out) shared = len_output (code out) (argsFor out t3).
Proof.
  intros H12 H1 H2 in1 in2 out shared.
  assert (E1 : forall suffix,
    (("_gen_" +:+ n1) +:+ suffix =? ("_gen_" +:+ n2) +:+ suffix)%string = false)
    by (intros suffix; now apply gen_names_differ).
  assert (O1 : (("_gen_" +:+ n1) +:+ "_size" =? "_gen_output_size")%string = false)
    by (apply (gen_names_differ n1 "output" "_size"); exact H1).
  assert (O2 : (("_gen_" +:+ n2) +:+ "_size" =? "_gen_output_size")%string = false)
    by (apply (gen_names_differ n2 "output" "_size"); exact H2).
  subst in1 in2 out shared.
  cbn [code read_ len_ main len_output boolInputPartGetter BOOL_OUTPUT_PART
       argsFor app uniform_sampler2D uniform_vec2 uniform_float].
  rewrite !String.eqb_refl, !E1, O1, O2.
  repeat split.
Qed.

(** The inputs "a" and "b" beside the output part. *)
Lemma parts_side_by_side_example :
  let shared := argsFor (boolInputPartGetter "a") tex_2x2
                ++ argsFor (boolInputPartGetter "b") no_texture
                ++ argsFor BOOL_OUTPUT_PART tex_2x2 in
  len_ (code (boolInputPartGetter "b")) shared = 0%Q /\
  len_output (code BOOL_OUTPUT_PART) shared = 4%Q.
Proof.
  intros shared.
  destruct (parts_side_by_side "a" "b" tex_2x2 no_texture tex_2x2 0
              (fun _ => true) (Vec2 0 0))
    as (_ & _ & _ & Hlen & _ & Hout); [discriminate | discriminate | discriminate |].
  split; [exact Hlen | exact Hout].
Defined.
